(** * The sync command handle of the NDN repository

    A shallow embedding of [ndn_python_repo/handle/sync_command_handle.py]
    (class [SyncCommandHandle]) and the properties of its command intake,
    group creation, recovery and missing-data fetch pipeline.

    The handle is an object with mutable attributes that every method reads
    and writes, and it talks to collaborators that live outside the file
    (the NDN name library, the concurrent fetcher, the sync participant, the
    storage).  The attributes become a record that is threaded through a
    small state-and-exception monad which also logs every call to a
    collaborator; the collaborators are variables of the section. *)

From stdpp Require Import gmap strings list fin_maps sorting pretty.
From Stdlib Require Import ZArith.
From Stdlib.Strings Require Import Byte.

#[global] Instance byte_eq_dec : EqDecision Byte.byte := Byte.byte_eq_dec.
#[global] Instance byte_countable : Countable Byte.byte :=
  inj_countable Byte.to_N Byte.of_N Byte.of_to_N.

(** Python [bytes]. *)
Abbreviation Bytes := (list Byte.byte).

(** The exception classes the file names in its [raise] and [except]
    clauses, and [KeyError] for a subscript on a missing dictionary key. *)
Inductive PyExc := KeyError | IndexError | TypeError | ValueError | DecodeError.

#[global] Instance PyExc_eq_dec : EqDecision PyExc.
Proof. solve_decision. Defined.

(** The outcome of a call: a value, or a raised exception. *)
Inductive Res (A : Type) := Ok (a : A) | Raise (e : PyExc).
Arguments Ok {A} a.
Arguments Raise {A} e.

(** [RepoStatCode], restricted to the two codes the handle assigns. *)
Inductive RepoStatCode := ROGER | IN_PROGRESS.

(** [IdNamingConv]: how the fetcher turns an id into the last component. *)
Inductive IdNamingConv := SEGMENT | SEQUENCE.

#[global] Instance RepoStatCode_eq_dec : EqDecision RepoStatCode.
Proof. solve_decision. Defined.
#[global] Instance IdNamingConv_eq_dec : EqDecision IdNamingConv.
Proof. solve_decision. Defined.

Section SyncCommandHandle.

#[local] Set Default Proof Using "Type".

(** ** Names *)

(** A name component is a TLV-encoded byte string in the NDN library; the
    handle only compares components and reads the number of the last one. *)
Context {Component : Type} `{Countable Component}.

(** [Name]: a Python list of components. *)
Abbreviation Name := (list Component).

(** [Name.from_str], [Name.to_str], [Component.to_number]. *)
Variable Name_from_str : string → Name.
Variable Name_to_str : Name → string.
Variable Component_to_number : Component → Z.

(** [NonStrictName]: what [PassiveSvs] and [Name.normalize] accept. *)
Inductive NonStrictName := StrName (s : string) | ListName (n : Name).

Definition Name_normalize (n : NonStrictName) : Name :=
  match n with
  | StrName s => Name_from_str s
  | ListName n => n
  end.

(** ** Commands and responses *)

(** [SyncParam]: one sync group of a command.  The two names are optional
    fields of the decoded message. *)
Record SyncParam := {
  sync_prefix : option Name;
  register_prefix : option Name;
  data_name_dedupe : bool
}.

(** [RepoCommandParam], restricted to the field the handle reads. *)
Record RepoCommandParam := { sync_groups : list SyncParam }.

(** [SyncStatus] and [RepoCommandRes]. *)
Record SyncStatus := {
  ss_name : option Name;
  ss_status_code : RepoStatCode;
  ss_insert_num : Z
}.

Record RepoCommandRes := {
  status_code : RepoStatCode;
  res_sync_groups : list SyncStatus
}.

(** [RepoCommandParam.parse] and [sha256(...).digest()]. *)
Variable RepoCommandParam_parse : Bytes → Res RepoCommandParam.
Variable sha256 : Bytes → Bytes.

(** Python truthiness of an optional name: [None] and the empty name are
    false. *)
Definition truthy (n : option Name) : bool :=
  match n with
  | Some (_ :: _) => true
  | _ => false
  end.

(** ** The sync participant *)

(** The exported state of a participant: opaque to the handle. *)
Variable SvsStates : Type.

(** Modelled from the spec: the Sync Participant ([PassiveSvs], imported
    from [..utils]) is an object bound to the base prefix of its group that
    exposes a local state vector (producer identity to highest known
    sequence number) and imports and exports its state.  [svs_inner] stands
    for the rest of the participant's state.  The local vector is a Python
    dictionary; it is kept as the list of its items, in iteration order. *)
Record PassiveSvs := {
  base_prefix : Name;
  local_sv : list (string * Z);
  svs_inner : option SvsStates
}.

(** [PassiveSvs(base_prefix, on_missing_data)]: the callback that every
    call site passes is the same ([aio.create_task(self.fetch_missing_data(svs))]),
    so it is not a field. *)
Definition PassiveSvs_init (prefix : NonStrictName) : PassiveSvs :=
  {| base_prefix := Name_normalize prefix; local_sv := []; svs_inner := None |}.

(** [svs.encode_into_states()] and [svs.decode_from_states(states)]. *)
Variable encode_into_states : PassiveSvs → SvsStates.
Variable decode_from_states : PassiveSvs → option SvsStates → PassiveSvs.

(** ** Group records *)

(** The dictionary kept per sync group in [states_on_disk], with its four
    keys.  ['svs_client_states'] is [{}] until the first export
    ([None] here). *)
Record GroupStates := {
  fetched_dict : gmap string Z;
  svs_client_states : option SvsStates;
  gs_data_name_dedupe : bool;
  check_status : gmap string Z
}.

Definition set_fetched (node_id : string) (v : Z) (gs : GroupStates) : GroupStates :=
  {| fetched_dict := <[node_id := v]> (fetched_dict gs);
     svs_client_states := svs_client_states gs;
     gs_data_name_dedupe := gs_data_name_dedupe gs;
     check_status := check_status gs |}.

Definition set_svs_client_states (s : SvsStates) (gs : GroupStates) : GroupStates :=
  {| fetched_dict := fetched_dict gs;
     svs_client_states := Some s;
     gs_data_name_dedupe := gs_data_name_dedupe gs;
     check_status := check_status gs |}.

(** ** The fetcher *)

(** What [concurrent_fetcher] yields: [(data_name, meta_info, content,
    data_bytes)]; the handle ignores the meta information. *)
Record Packet := {
  data_name : Name;
  data_content : option Bytes;
  data_bytes : Bytes
}.

(** The arguments of a call of [concurrent_fetcher].  [name_conv] and
    [max_retries] are keyword arguments; [None] means the call leaves the
    keyword out and the fetcher's default applies.  [end_id = None] is
    Python's [end_id=None]: no upper bound.  [semaphore] is the value of the
    fresh [aio.Semaphore]. *)
Record FetchArgs := {
  fetch_name : Name;
  start_id : Z;
  end_id : option Z;
  semaphore : Z;
  name_conv : option IdNamingConv;
  max_retries : option Z
}.

(** The network the fetcher talks to.  A call yields a sequence of packets
    and leaves the network in a new state. *)
Variable Net : Type.
Variable concurrent_fetcher : Net → FetchArgs → list Packet * Net.

(** [parse_data(content)], of which the handle keeps the content field, and
    [Name.from_bytes]. *)
Variable parse_data : option Bytes → Res (option Bytes).
Variable Name_from_bytes : option Bytes → Res Name.

(** ** Storage *)

(** Modelled from the spec: the Persistent State Store ([Storage], with the
    static helpers of the base class [CommandHandle]) is a durable key-value
    store used for the stored data objects (key: the full name of the
    packet, value: its raw bytes), for the set of registered prefixes, for
    the set of sync groups, and for the per-group records (key: the
    normalized sync prefix string). *)
Record Storage := {
  data_packets : gmap Name Bytes;
  registered_prefixes : list Name;
  stored_sync_groups : list Name;
  sync_states : gmap string GroupStates
}.

(** ** The handle *)

(** The attributes of [SyncCommandHandle] ([m_processes], [storage] and
    [app] belong to the base class), with the collaborators the handle
    holds: [app] is the list of participants started on the [NDNApp],
    [m_read_handle] the list of prefixes the read handle was told to
    listen on.  A [Coroutine] is what the file hands to
    [aio.create_task]. *)
Inductive Coroutine :=
| Process_sync (cmd_param : RepoCommandParam) (request_no : Bytes)
| Fetch_missing_data (svs : PassiveSvs).

Record Handle := {
  states_on_disk : gmap string GroupStates;
  m_processes : gmap Bytes RepoCommandRes;
  register_root : bool;
  storage : Storage;
  m_read_handle : list Name;
  app : list PassiveSvs;
  network : Net
}.

Definition with_states_on_disk (f : gmap string GroupStates → gmap string GroupStates)
    (h : Handle) : Handle :=
  {| states_on_disk := f (states_on_disk h); m_processes := m_processes h;
     register_root := register_root h; storage := storage h;
     m_read_handle := m_read_handle h; app := app h; network := network h |}.

Definition with_m_processes (f : gmap Bytes RepoCommandRes → gmap Bytes RepoCommandRes)
    (h : Handle) : Handle :=
  {| states_on_disk := states_on_disk h; m_processes := f (m_processes h);
     register_root := register_root h; storage := storage h;
     m_read_handle := m_read_handle h; app := app h; network := network h |}.

Definition with_storage (f : Storage → Storage) (h : Handle) : Handle :=
  {| states_on_disk := states_on_disk h; m_processes := m_processes h;
     register_root := register_root h; storage := f (storage h);
     m_read_handle := m_read_handle h; app := app h; network := network h |}.

Definition with_m_read_handle (f : list Name → list Name) (h : Handle) : Handle :=
  {| states_on_disk := states_on_disk h; m_processes := m_processes h;
     register_root := register_root h; storage := storage h;
     m_read_handle := f (m_read_handle h); app := app h; network := network h |}.

Definition with_app (f : list PassiveSvs → list PassiveSvs) (h : Handle) : Handle :=
  {| states_on_disk := states_on_disk h; m_processes := m_processes h;
     register_root := register_root h; storage := storage h;
     m_read_handle := m_read_handle h; app := f (app h); network := network h |}.

Definition with_network (n : Net) (h : Handle) : Handle :=
  {| states_on_disk := states_on_disk h; m_processes := m_processes h;
     register_root := register_root h; storage := storage h;
     m_read_handle := m_read_handle h; app := app h; network := n |}.

(** ** Effects *)

(** One entry per statement of the file that reads or writes the progress
    of a producer or calls a collaborator, in program order. *)
Inductive Event :=
| EvResponse (request_no : Bytes) (stat : RepoCommandRes)
| EvCreateTask (c : Coroutine)
| EvSvsStart (svs : PassiveSvs)
| EvAddRegisteredPrefix (prefix : Name) (is_existing : bool)
| EvListen (prefix : Name)
| EvAddSyncGroup (prefix : Name)
| EvAddSyncStates (prefix : Name) (states : GroupStates)
| EvGetFetched (group : string) (node_id : string) (fetched_seq : Z)
| EvSetFetched (group : string) (node_id : string) (fetched_seq : Z)
| EvFetch (args : FetchArgs)
| EvPutData (name : Name) (bytes : Bytes).

(** A computation on the handle: the new handle, the log of what it did and
    the value or the exception it ends with.  Effects that precede an
    exception stay. *)
Definition Eff (A : Type) : Type := Handle → Handle * list Event * Res A.

#[local] Instance eff_ret : MRet Eff := λ A a h, (h, [], Ok a).

#[local] Instance eff_bind : MBind Eff := λ A B f m h,
  match m h with
  | (h1, t1, Ok a) => let '(h2, t2, r) := f a h1 in (h2, t1 ++ t2, r)
  | (h1, t1, Raise e) => (h1, t1, Raise e)
  end.

Definition get : Eff Handle := λ h, (h, [], Ok h).
Definition modify (f : Handle → Handle) : Eff unit := λ h, (f h, [], Ok tt).
Definition emit (e : Event) : Eff unit := λ h, (h, [e], Ok tt).
Definition raise {A} (e : PyExc) : Eff A := λ h, (h, [], Raise e).

(** [for x in l: body(x)]. *)
Fixpoint for_ {A} (l : list A) (body : A → Eff unit) : Eff unit :=
  match l with
  | [] => mret tt
  | x :: l' => body x ≫= λ _, for_ l' body
  end.

(** The handle, the log and the outcome of a run. *)
Definition handle_of {A} (o : Handle * list Event * Res A) : Handle := o.1.1.
Definition trace_of {A} (o : Handle * list Event * Res A) : list Event := o.1.2.
Definition result_of {A} (o : Handle * list Event * Res A) : Res A := o.2.

(** ** Storage helpers *)

(** Modelled from the spec: [CommandHandle.add_registered_prefix_in_storage]
    records the prefix as registered, is idempotent (an already registered
    prefix is skipped) and tells whether the prefix was registered before. *)
Definition add_registered_prefix_in_storage (prefix : Name) : Eff bool :=
  h ← get;
  let is_existing := bool_decide (prefix ∈ registered_prefixes (storage h)) in
  modify (with_storage (λ st,
    {| data_packets := data_packets st;
       registered_prefixes :=
         if is_existing then registered_prefixes st
         else registered_prefixes st ++ [prefix];
       stored_sync_groups := stored_sync_groups st;
       sync_states := sync_states st |}));;
  emit (EvAddRegisteredPrefix prefix is_existing);;
  mret is_existing.

(** Modelled from the spec: [CommandHandle.add_sync_group_in_storage] adds
    the prefix to the stored set of sync groups. *)
Definition add_sync_group_in_storage (prefix : Name) : Eff unit :=
  modify (with_storage (λ st,
    {| data_packets := data_packets st;
       registered_prefixes := registered_prefixes st;
       stored_sync_groups :=
         if bool_decide (prefix ∈ stored_sync_groups st) then stored_sync_groups st
         else stored_sync_groups st ++ [prefix];
       sync_states := sync_states st |}));;
  emit (EvAddSyncGroup prefix).

(** Modelled from the spec: [CommandHandle.add_sync_states_in_storage]
    writes the whole group record under the normalized sync prefix
    string. *)
Definition store_states (prefix : Name) (states : GroupStates) (h : Handle) : Handle :=
  with_storage (λ st,
    {| data_packets := data_packets st;
       registered_prefixes := registered_prefixes st;
       stored_sync_groups := stored_sync_groups st;
       sync_states := <[Name_to_str prefix := states]> (sync_states st) |}) h.

Definition add_sync_states_in_storage (prefix : Name) (states : GroupStates) : Eff unit :=
  modify (store_states prefix states);;
  emit (EvAddSyncStates prefix states).

(** Modelled from the spec: [Storage.put_data_packet] stores the raw bytes
    of a packet under its full name; a second write of the same name
    overwrites. *)
Definition store_packet (name : Name) (bytes : Bytes) (h : Handle) : Handle :=
  with_storage (λ st,
    {| data_packets := <[name := bytes]> (data_packets st);
       registered_prefixes := registered_prefixes st;
       stored_sync_groups := stored_sync_groups st;
       sync_states := sync_states st |}) h.

Definition put_data_packet (name : Name) (bytes : Bytes) : Eff unit :=
  modify (store_packet name bytes);;
  emit (EvPutData name bytes).

(** [svs.start(self.app)] and [self.m_read_handle.listen(prefix)]. *)
Definition svs_start (svs : PassiveSvs) : Eff unit :=
  modify (with_app (λ l, l ++ [svs]));; emit (EvSvsStart svs).

Definition read_handle_listen (prefix : Name) : Eff unit :=
  modify (with_m_read_handle (λ l, l ++ [prefix]));; emit (EvListen prefix).

(** [aio.create_task(c)]: the coroutine is scheduled, nothing of it runs
    before the caller returns. *)
Definition create_task (c : Coroutine) : Eff unit := emit (EvCreateTask c).

(** The callback every participant is created with:
    [lambda svs: aio.create_task(self.fetch_missing_data(svs))]. *)
Definition on_missing_data (svs : PassiveSvs) : Eff unit :=
  create_task (Fetch_missing_data svs).

(** ** [recover_from_states] *)

(** The body of the loop over [self.states_on_disk.items()].  The keys of
    the table are the strings [_process_sync] writes. *)
Definition recover_group (item : string * GroupStates) : Eff unit :=
  let '(sync_group, group_states) := item in
  let new_svs := PassiveSvs_init (StrName sync_group) in
  let new_svs := decode_from_states new_svs (svs_client_states group_states) in
  svs_start new_svs.

Definition recover_from_states (states : gmap string GroupStates) : Eff unit :=
  modify (with_states_on_disk (λ _, states));;
  for_ (map_to_list states) recover_group.

(** ** [_on_sync_msg] *)

(** The checks inside the [try]: the outcome is the parsed command with its
    request number, or the exception raised. *)
Definition decode_sync_msg (msg : Bytes) : Res (RepoCommandParam * Bytes) :=
  match RepoCommandParam_parse msg with
  | Raise e => Raise e
  | Ok cmd_param =>
      let request_no := sha256 msg in
      match sync_groups cmd_param with
      | [] => Raise DecodeError
      | _ :: _ =>
          if forallb (λ group, truthy (sync_prefix group)) (sync_groups cmd_param)
          then Ok (cmd_param, request_no)
          else Raise DecodeError
      end
  end.

(** [except (DecodeError, IndexError)]. *)
Definition caught_on_sync_msg (e : PyExc) : bool :=
  match e with
  | DecodeError | IndexError => true
  | _ => false
  end.

Definition _on_sync_msg (msg : Bytes) : Eff unit :=
  match decode_sync_msg msg with
  | Raise e => if caught_on_sync_msg e then mret tt else raise e
  | Ok (cmd_param, request_no) => create_task (Process_sync cmd_param request_no)
  end.

(** ** [_process_sync] *)

Definition _init_sync_stat (param : SyncParam) : SyncStatus :=
  {| ss_name := sync_prefix param; ss_status_code := ROGER; ss_insert_num := 0%Z |}.

(** The body of the loop over the groups (the index [idx] is not used).
    [Name.to_str] of a missing prefix raises; [_on_sync_msg] lets no such
    group through. *)
Definition process_group (group : SyncParam) : Eff unit :=
  match sync_prefix group with
  | None => raise TypeError
  | Some prefix =>
      h ← get;
      (* check duplicate *)
      if bool_decide (Name_to_str prefix ∈ dom (states_on_disk h)) then mret tt
      else
        let new_svs := PassiveSvs_init (ListName prefix) in
        svs_start new_svs;;
        (* write states *)
        let new_states :=
          {| fetched_dict := ∅; svs_client_states := None;
             gs_data_name_dedupe := data_name_dedupe group; check_status := ∅ |} in
        modify (with_states_on_disk (insert (Name_to_str prefix) new_states));;
        (* Remember the prefixes to register *)
        (if truthy (register_prefix group) then
           let rp := default [] (register_prefix group) in
           is_existing ← add_registered_prefix_in_storage rp;
           (* If repo does not register root prefix, the client tells repo what to register *)
           if negb (register_root h) && negb is_existing
           then read_handle_listen rp else mret tt
         else mret tt);;
        add_sync_group_in_storage prefix;;
        let new_states := set_svs_client_states (encode_into_states new_svs) new_states in
        modify (with_states_on_disk (insert (Name_to_str prefix) new_states));;
        add_sync_states_in_storage prefix new_states
  end.

Definition _process_sync (cmd_param : RepoCommandParam) (request_no : Bytes) : Eff unit :=
  let groups := sync_groups cmd_param in
  let stat :=
    {| status_code := IN_PROGRESS; res_sync_groups := _init_sync_stat <$> groups |} in
  modify (with_m_processes (insert request_no stat));;
  emit (EvResponse request_no stat);;
  (* start sync *)
  for_ groups process_group.

(** ** [fetch_missing_data] *)

(** The list comprehension
    [[i for n, i in enumerate(node_name) if i not in node_name[:n]]]. *)
Definition enumerate {A} (l : list A) : list (nat * A) := imap pair l.

Definition dedupe (node_name : Name) : Name :=
  (filter (λ ni : nat * Component, ni.2 ∉ take ni.1 node_name) (enumerate node_name)).*2.

(** The head of the loop over the producers, up to the creation of the
    fetcher: the packets the fetcher is going to yield, or [None] when
    [fetched_seq < seq] fails and the loop goes on to the next producer. *)
Definition data_prefix_of (group_data_name_dedupe : bool) (svs : PassiveSvs)
    (node_id : string) : Name :=
  let node_name := Name_from_str node_id ++ base_prefix svs in
  if group_data_name_dedupe then dedupe node_name else node_name.

Definition call_fetcher (args : FetchArgs) : Eff (list Packet) :=
  h ← get;
  let '(pkts, net) := concurrent_fetcher (network h) args in
  modify (with_network net);;
  emit (EvFetch args);;
  mret pkts.

Definition enter_node (svs : PassiveSvs) (node_id : string) (seq : Z)
    : Eff (option (list Packet)) :=
  h ← get;
  let group := Name_to_str (base_prefix svs) in
  match states_on_disk h !! group with
  | None => raise KeyError
  | Some group_states =>
      let fetched_seq := default 0%Z (fetched_dict group_states !! node_id) in
      emit (EvGetFetched group node_id fetched_seq);;
      let group_data_name_dedupe := gs_data_name_dedupe group_states in
      let data_prefix := data_prefix_of group_data_name_dedupe svs node_id in
      (* I do not treat fetching failure as hard failure *)
      if bool_decide (fetched_seq < seq)%Z then
        pkts ← call_fetcher
          {| fetch_name := data_prefix; start_id := (fetched_seq + 1)%Z; end_id := Some seq;
             semaphore := 10%Z; name_conv := Some SEQUENCE; max_retries := Some (-1)%Z |};
        mret (Some pkts)
      else mret None
  end.

(** [except (TypeError, IndexError, ValueError)]. *)
Definition caught_pointer (e : PyExc) : bool :=
  match e with
  | TypeError | IndexError | ValueError => true
  | _ => false
  end.

(** The two statements inside the [try]. *)
Definition decode_pointer (data_content : option Bytes) : Res Name :=
  match parse_data data_content with
  | Raise e => Raise e
  | Ok inner_data_content => Name_from_bytes inner_data_content
  end.

(** [group_states] and [group_fetched_dict] are references into
    [states_on_disk]: the assignments of the loop body change the entry of
    the table in place.  No statement of the file removes an entry or
    replaces an existing one while a pass is running ([_process_sync] only
    adds missing keys), so the in-place update is the update of the table at
    the key of the group. *)
Definition update_group (group : string) (f : GroupStates → GroupStates) : Eff GroupStates :=
  h ← get;
  match states_on_disk h !! group with
  | None => raise KeyError
  | Some group_states =>
      modify (with_states_on_disk (insert group (f group_states)));;
      mret (f group_states)
  end.

(** The body of the loop over the packets of a producer, up to the creation
    of the fetcher for the segments of a pointer: the segments that fetcher
    is going to yield, or [None] after [continue]. *)
Definition on_packet (svs : PassiveSvs) (node_id : string) (pkt : Packet)
    : Eff (option (list Packet)) :=
  let group := Name_to_str (base_prefix svs) in
  (* put into storage asap *)
  put_data_packet (data_name pkt) (data_bytes pkt);;
  match last (data_name pkt) with
  | None => raise IndexError
  | Some c =>
      let n := Component_to_number c in
      update_group group (set_fetched node_id n);;
      emit (EvSetFetched group node_id n);;
      group_states ← update_group group (set_svs_client_states (encode_into_states svs));
      add_sync_states_in_storage (base_prefix svs) group_states;;
      match decode_pointer (data_content pkt) with
      | Raise e => if caught_pointer e then mret None else raise e
      | Ok obj_pointer =>
          segs ← call_fetcher
            {| fetch_name := obj_pointer; start_id := 0%Z; end_id := None;
               semaphore := 10%Z; name_conv := None; max_retries := None |};
          mret (Some segs)
      end
  end.

Definition on_segment (seg : Packet) : Eff unit :=
  put_data_packet (data_name seg) (data_bytes seg).

(** The pass when nothing else runs between its suspension points: the
    bodies of the loop over the packets and of the loop over the
    producers. *)
Definition fetch_packet (svs : PassiveSvs) (node_id : string) (pkt : Packet) : Eff unit :=
  r ← on_packet svs node_id pkt;
  match r with
  | None => mret tt
  | Some segs => for_ segs on_segment
  end.

Definition fetch_node (svs : PassiveSvs) (item : string * Z) : Eff unit :=
  let '(node_id, seq) := item in
  r ← enter_node svs node_id seq;
  match r with
  | None => mret tt
  | Some pkts => for_ pkts (fetch_packet svs node_id)
  end.

Definition fetch_missing_data (svs : PassiveSvs) : Eff unit :=
  let local_sv := local_sv svs in
  for_ local_sv (fetch_node svs).

(** ** Passes as tasks of the event loop *)

(** [fetch_missing_data] is a coroutine, and every call of the callback of
    a participant makes a new task of it ([aio.create_task]).  A task runs
    alone up to its next [await]; there the event loop may resume any other
    task.  The pass awaits in its two [async for] loops only: once for
    every packet or segment it asks the fetcher for, the request that finds
    the fetcher exhausted included.  A task is either done or suspended
    with the step it takes when it is resumed; the step ends at the next
    [await] with the rest of the task. *)
#[local] Unset Elimination Schemes.
Inductive Task :=
| Done
| Await (k : Eff Task).
#[local] Set Elimination Schemes.

(** The inner loop, from the [await] for the next segment on; [k] is what
    the task does after the loop. *)
Fixpoint await_segments (segs : list Packet) (k : Task) : Task :=
  match segs with
  | [] => Await (mret k)
  | seg :: segs' => Await (on_segment seg ≫= λ _, mret (await_segments segs' k))
  end.

(** The loop over the packets of a producer, from the [await] for the next
    packet on; [k] is what the task does after the loop, in the step that
    finds the fetcher exhausted. *)
Fixpoint await_packets (svs : PassiveSvs) (node_id : string) (pkts : list Packet)
    (k : Eff Task) : Task :=
  match pkts with
  | [] => Await k
  | pkt :: pkts' =>
      Await (r ← on_packet svs node_id pkt;
             match r with
             | None => mret (await_packets svs node_id pkts' k)
             | Some segs => mret (await_segments segs (await_packets svs node_id pkts' k))
             end)
  end.

(** The loop over the producers, up to the first [await]. *)
Fixpoint next_nodes (svs : PassiveSvs) (items : list (string * Z)) : Eff Task :=
  match items with
  | [] => mret Done
  | (node_id, seq) :: items' =>
      r ← enter_node svs node_id seq;
      match r with
      | None => next_nodes svs items'
      | Some pkts => mret (await_packets svs node_id pkts (next_nodes svs items'))
      end
  end.

(** The task [aio.create_task(self.fetch_missing_data(svs))] creates: it
    has not started yet. *)
Definition fetch_missing_data_task (svs : PassiveSvs) : Task :=
  Await (next_nodes svs (local_sv svs)).


(** The event loop.  A schedule is the list of the tasks the loop resumes,
    by their position in the pool, in order.  A resumed task takes one
    step; an exception ends it.  The log of a run tells which task made
    each entry. *)
Fixpoint run_schedule (sched : list nat) (tasks : list Task) (h : Handle)
    : list Task * Handle * list (nat * Event) :=
  match sched with
  | [] => (tasks, h, [])
  | i :: sched' =>
      match tasks !! i with
      | Some (Await k) =>
          let '(h1, t1, r) := k h in
          let t' := match r with Ok t' => t' | Raise _ => Done end in
          let '(tasks', h2, t2) := run_schedule sched' (<[i := t']> tasks) h1 in
          (tasks', h2, (pair i <$> t1) ++ t2)
      | _ => run_schedule sched' tasks h
      end
  end.




(** ** The dedup transform, in the words of the specification *)

(** Keep a component unless it already appeared earlier in the name;
    [seen] holds the components that appeared so far. *)
Fixpoint first_occurrences (seen : list Component) (name : Name) : Name :=
  match name with
  | [] => []
  | c :: name' =>
      if decide (c ∈ seen) then first_occurrences seen name'
      else c :: first_occurrences (seen ++ [c]) name'
  end.

(** [tauto] and [intuition] look at every hypothesis: the collaborators
    are put out of their sight first. *)
Ltac forget_collaborators :=
  try clear decode_from_states; try clear encode_into_states;
  try clear concurrent_fetcher; try clear parse_data; try clear Name_from_bytes;
  try clear RepoCommandParam_parse; try clear sha256;
  try clear Component_to_number; try clear Name_to_str; try clear Name_from_str.
Ltac logic := forget_collaborators; tauto.
Ltac logic_eq := forget_collaborators; intuition congruence.

Lemma first_occurrences_ext (seen seen' : list Component) (name : Name) :
  (∀ c, c ∈ seen ↔ c ∈ seen') →
  first_occurrences seen name = first_occurrences seen' name.
Proof.
  revert seen seen'. induction name as [|c name IH]; intros seen seen' Heq; [done|].
  cbn. destruct (decide (c ∈ seen)) as [Hc|Hc], (decide (c ∈ seen')) as [Hc'|Hc'].
  - by apply IH.
  - by apply Heq in Hc.
  - by apply Heq in Hc'.
  - f_equal. apply IH. intros d. rewrite !elem_of_app, Heq. logic.
Qed.

Lemma dedupe_from (seen : list Component) (name : Name) :
  (filter (λ ni : nat * Component, ni.2 ∉ take ni.1 (seen ++ name))
          (imap (λ i c, (length seen + i, c)) name)).*2
  = first_occurrences seen name.
Proof.
  revert seen. induction name as [|c name IH]; intros seen; [done|].
  rewrite imap_cons, filter_cons. cbn [fst snd first_occurrences].
  rewrite Nat.add_0_r, take_app_length.
  assert (Hrest :
    (filter (λ ni : nat * Component, ni.2 ∉ take ni.1 (seen ++ c :: name))
            (imap ((λ i c, (length seen + i, c)) ∘ S) name)).*2
    = first_occurrences (seen ++ [c]) name).
  { rewrite <- IH, <- (assoc_L (++) seen [c] name). cbn [app].
    do 2 f_equal. apply imap_ext. intros i x _. cbn.
    rewrite length_app. cbn. f_equal. lia. }
  destruct (decide (c ∉ seen)) as [Hc|Hc], (decide (c ∈ seen)) as [Hc'|Hc'];
    try done; cbn [fmap list_fmap snd]; rewrite Hrest; [done|].
  apply first_occurrences_ext. intros d.
  rewrite elem_of_app, list_elem_of_singleton. split; [intros [?| ->]; done | by left].
Qed.

Lemma dedupe_first_occurrences (name : Name) : dedupe name = first_occurrences [] name.
Proof. unfold dedupe, enumerate. by rewrite <- dedupe_from. Qed.

Lemma first_occurrences_elem (seen : list Component) (name : Name) (c : Component) :
  c ∈ first_occurrences seen name ↔ c ∈ name ∧ c ∉ seen.
Proof.
  revert seen. induction name as [|d name IH]; intros seen; cbn.
  - split; [by intros ?%elem_of_nil | by intros [?%elem_of_nil _]].
  - destruct (decide (d ∈ seen)) as [Hd|Hd].
    + rewrite IH, elem_of_cons. split; [logic|].
      intros [[->|?] ?]; [done | logic].
    + rewrite !elem_of_cons, IH, elem_of_app, list_elem_of_singleton.
      destruct (decide (c = d)) as [->|Hne]; logic.
Qed.

Lemma first_occurrences_NoDup (seen : list Component) (name : Name) :
  NoDup (first_occurrences seen name).
Proof.
  revert seen. induction name as [|d name IH]; intros seen; cbn; [constructor|].
  destruct (decide (d ∈ seen)); [done|]. constructor; [|done].
  rewrite first_occurrences_elem, elem_of_app, list_elem_of_singleton. logic.
Qed.

Lemma first_occurrences_sublist (seen : list Component) (name : Name) :
  sublist (first_occurrences seen name) name.
Proof.
  revert seen. induction name as [|d name IH]; intros seen; cbn; [constructor|].
  destruct (decide (d ∈ seen)).
  - apply sublist_cons. apply IH.
  - apply sublist_skip. apply IH.
Qed.

(** ** Reasoning about runs *)

Lemma bind_run {A B} (m : Eff A) (f : A → Eff B) (h : Handle) :
  (m ≫= f) h =
  match m h with
  | (h1, t1, Ok a) => let '(h2, t2, r) := f a h1 in (h2, t1 ++ t2, r)
  | (h1, t1, Raise e) => (h1, t1, Raise e)
  end.
Proof. reflexivity. Qed.

Lemma for_app {A} (l1 l2 : list A) (body : A → Eff unit) (h : Handle) :
  for_ (l1 ++ l2) body h = (for_ l1 body ≫= λ _, for_ l2 body) h.
Proof.
  revert h. induction l1 as [|x l1 IH]; intros h.
  - cbn. rewrite bind_run. cbn. by destruct (for_ l2 body h) as [[h2 t2] r].
  - rewrite <- app_comm_cons. cbn [for_]. rewrite !bind_run.
    destruct (body x h) as [[h1 t1] [[]|e]]; [|done].
    rewrite IH, !bind_run. destruct (for_ l1 body h1) as [[h2 t2] [[]|e]]; [|done].
    destruct (for_ l2 body h2) as [[h3 t3] r]. by rewrite (assoc_L (++)).
Qed.

Lemma ret_run {A} (a : A) (h : Handle) : (mret a : Eff A) h = (h, [], Ok a).
Proof. reflexivity. Qed.

Lemma get_run (h : Handle) : get h = (h, [], Ok h).
Proof. reflexivity. Qed.

Lemma modify_run (f : Handle → Handle) (h : Handle) : modify f h = (f h, [], Ok tt).
Proof. reflexivity. Qed.

Lemma emit_run (e : Event) (h : Handle) : emit e h = (h, [e], Ok tt).
Proof. reflexivity. Qed.

Lemma raise_run {A} (e : PyExc) (h : Handle) : raise (A:=A) e h = (h, [], Raise e).
Proof. reflexivity. Qed.

Lemma put_data_packet_run (name : Name) (bytes : Bytes) (h : Handle) :
  put_data_packet name bytes h = (store_packet name bytes h, [EvPutData name bytes], Ok tt).
Proof. reflexivity. Qed.

Lemma add_sync_states_in_storage_run (prefix : Name) (gs : GroupStates) (h : Handle) :
  add_sync_states_in_storage prefix gs h
  = (store_states prefix gs h, [EvAddSyncStates prefix gs], Ok tt).
Proof. reflexivity. Qed.

Lemma call_fetcher_run (args : FetchArgs) (h : Handle) :
  call_fetcher args h
  = (with_network (concurrent_fetcher (network h) args).2 h, [EvFetch args],
     Ok (concurrent_fetcher (network h) args).1).
Proof.
  unfold call_fetcher. rewrite bind_run, get_run. cbn beta iota zeta.
  by destruct (concurrent_fetcher (network h) args) as [pkts net].
Qed.

Lemma update_group_run (g : string) (f : GroupStates → GroupStates) (h : Handle) :
  update_group g f h =
  match states_on_disk h !! g with
  | None => (h, [], Raise KeyError)
  | Some gs => (with_states_on_disk (insert g (f gs)) h, [], Ok (f gs))
  end.
Proof.
  unfold update_group. rewrite bind_run, get_run. cbn beta iota zeta.
  by destruct (states_on_disk h !! g).
Qed.

Lemma on_segment_run (seg : Packet) (h : Handle) :
  on_segment seg h
  = (store_packet (data_name seg) (data_bytes seg) h,
     [EvPutData (data_name seg) (data_bytes seg)], Ok tt).
Proof. reflexivity. Qed.

Lemma svs_start_run (svs : PassiveSvs) (h : Handle) :
  svs_start svs h = (with_app (λ l, l ++ [svs]) h, [EvSvsStart svs], Ok tt).
Proof. reflexivity. Qed.

Lemma read_handle_listen_run (prefix : Name) (h : Handle) :
  read_handle_listen prefix h
  = (with_m_read_handle (λ l, l ++ [prefix]) h, [EvListen prefix], Ok tt).
Proof. reflexivity. Qed.

Lemma create_task_run (c : Coroutine) (h : Handle) :
  create_task c h = (h, [EvCreateTask c], Ok tt).
Proof. reflexivity. Qed.

(** Runs the sequencing of the monad in the goal. *)
Ltac run_step :=
  rewrite ?bind_run, ?ret_run, ?get_run, ?modify_run, ?emit_run, ?raise_run,
    ?put_data_packet_run, ?add_sync_states_in_storage_run, ?call_fetcher_run,
    ?update_group_run, ?on_segment_run, ?svs_start_run, ?read_handle_listen_run, ?create_task_run;
  cbn beta iota zeta delta
    [states_on_disk m_processes register_root storage m_read_handle app network
     with_states_on_disk with_m_processes with_storage with_m_read_handle with_app
     with_network store_packet store_states List.app fst snd
     handle_of trace_of result_of].
Ltac run_eff := repeat progress run_step.


(** A relation between the handle before a run, the log of the run and the
    handle after it that holds of the empty run and composes. *)
Class TraceRel (T : Handle → list Event → Handle → Prop) := {
  trace_rel_refl h : T h [] h;
  trace_rel_trans h1 t1 h2 t2 h3 : T h1 t1 h2 → T h2 t2 h3 → T h1 (t1 ++ t2) h3
}.

(** Every run of [m] satisfies [T], whatever it ends with. *)
Definition sat {A} (T : Handle → list Event → Handle → Prop) (m : Eff A) : Prop :=
  ∀ h, T h (trace_of (m h)) (handle_of (m h)).

Section sat.
Context (T : Handle → list Event → Handle → Prop) `{!TraceRel T}.

Lemma sat_ret {A} (a : A) : sat T (mret a).
Proof using Type TraceRel0. intros h. apply trace_rel_refl. Qed.

Lemma sat_bind {A B} (m : Eff A) (f : A → Eff B) :
  sat T m → (∀ a, sat T (f a)) → sat T (m ≫= f).
Proof using Type TraceRel0.
  intros Hm Hf h. rewrite bind_run. specialize (Hm h).
  destruct (m h) as [[h1 t1] [a|e]]; [|done].
  specialize (Hf a h1). destruct (f a h1) as [[h2 t2] r].
  by eapply trace_rel_trans.
Qed.

Lemma sat_for {A} (l : list A) (body : A → Eff unit) :
  (∀ x, sat T (body x)) → sat T (for_ l body).
Proof using Type TraceRel0.
  intros Hbody. induction l as [|x l IH]; [apply sat_ret|].
  cbn [for_]. apply sat_bind; [apply Hbody | by intros _].
Qed.

End sat.

(** ** The recorded progress and its history *)

(** [fetched_dict.get(node_id, 0)] of group [g] in the table. *)
Definition fetched_of (h : Handle) (g p : string) : Z :=
  default 0%Z (states_on_disk h !! g ≫= λ gs, fetched_dict gs !! p).

Definition dedupe_flag_of (h : Handle) (g : string) : option bool :=
  gs_data_name_dedupe <$> states_on_disk h !! g.

(** The values the log assigns to the progress of producer [p] in group
    [g], in order. *)
Definition history (g p : string) (tr : list Event) : list Z :=
  omap (λ e, match e with
             | EvSetFetched g' p' v =>
                 if decide (g' = g ∧ p' = p) then Some v else None
             | _ => None
             end) tr.

(** The progress in the table is the last value the log assigned, and the
    record of a group stays in the table with its dedupe flag. *)
Definition follows (g p : string) (h : Handle) (tr : list Event) (h' : Handle) : Prop :=
  fetched_of h' g p = default (fetched_of h g p) (last (history g p tr)) ∧
  dedupe_flag_of h' g = dedupe_flag_of h g.

Lemma history_app (g p : string) (t1 t2 : list Event) :
  history g p (t1 ++ t2) = history g p t1 ++ history g p t2.
Proof. apply omap_app. Qed.

#[local] Instance follows_rel (g p : string) : TraceRel (follows g p).
Proof.
  split.
  - intros h. by split.
  - intros h1 t1 h2 t2 h3 [Hf1 Hd1] [Hf2 Hd2]. split.
    + rewrite Hf2, Hf1, history_app, last_app. by destruct (last (history g p t2)).
    + by rewrite Hd2.
Qed.

(** *** The blocks of the pass, computed *)

Definition sequence_args (data_prefix : Name) (fetched_seq seq : Z) : FetchArgs :=
  {| fetch_name := data_prefix; start_id := (fetched_seq + 1)%Z; end_id := Some seq;
     semaphore := 10%Z; name_conv := Some SEQUENCE; max_retries := Some (-1)%Z |}.

Definition pointer_args (obj_pointer : Name) : FetchArgs :=
  {| fetch_name := obj_pointer; start_id := 0%Z; end_id := None;
     semaphore := 10%Z; name_conv := None; max_retries := None |}.

Lemma with_states_insert_twice (g : string) (gs1 gs2 : GroupStates) (h : Handle) :
  with_states_on_disk (insert g gs2) (with_states_on_disk (insert g gs1) h)
  = with_states_on_disk (insert g gs2) h.
Proof. unfold with_states_on_disk. cbn. f_equal. apply insert_insert_eq. Qed.

Lemma enter_node_eq (svs : PassiveSvs) (node_id : string) (seq : Z) (h : Handle) :
  enter_node svs node_id seq h =
  let g := Name_to_str (base_prefix svs) in
  match states_on_disk h !! g with
  | None => (h, [], Raise KeyError)
  | Some gs =>
      let fetched_seq := fetched_of h g node_id in
      if bool_decide (fetched_seq < seq)%Z then
        let args := sequence_args (data_prefix_of (gs_data_name_dedupe gs) svs node_id) fetched_seq seq in
        (with_network (concurrent_fetcher (network h) args).2 h,
         [EvGetFetched g node_id fetched_seq; EvFetch args],
         Ok (Some (concurrent_fetcher (network h) args).1))
      else (h, [EvGetFetched g node_id fetched_seq], Ok None)
  end.
Proof.
  unfold enter_node, fetched_of. run_eff.
  destruct (states_on_disk h !! Name_to_str (base_prefix svs)) as [gs|] eqn:Hg;
    run_eff; [|done].
  cbn [mbind option_bind]. by case_bool_decide; run_eff.
Qed.

Lemma on_packet_eq (svs : PassiveSvs) (node_id : string) (pkt : Packet) (h : Handle) :
  on_packet svs node_id pkt h =
  let g := Name_to_str (base_prefix svs) in
  let put := EvPutData (data_name pkt) (data_bytes pkt) in
  match last (data_name pkt) with
  | None => (store_packet (data_name pkt) (data_bytes pkt) h, [put], Raise IndexError)
  | Some c =>
      match states_on_disk h !! g with
      | None => (store_packet (data_name pkt) (data_bytes pkt) h, [put], Raise KeyError)
      | Some gs =>
          let n := Component_to_number c in
          let gs' := set_svs_client_states (encode_into_states svs) (set_fetched node_id n gs) in
          let h' := store_states (base_prefix svs) gs'
                      (with_states_on_disk (insert g gs') (store_packet (data_name pkt) (data_bytes pkt) h)) in
          let tr := [put; EvSetFetched g node_id n; EvAddSyncStates (base_prefix svs) gs'] in
          match decode_pointer (data_content pkt) with
          | Raise e => (h', tr, if caught_pointer e then Ok None else Raise e)
          | Ok obj_pointer =>
              (with_network (concurrent_fetcher (network h) (pointer_args obj_pointer)).2 h',
               tr ++ [EvFetch (pointer_args obj_pointer)],
               Ok (Some (concurrent_fetcher (network h) (pointer_args obj_pointer)).1))
          end
      end
  end.
Proof.
  unfold on_packet. run_eff.
  destruct (last (data_name pkt)) as [c|]; run_eff; [|done].
  destruct (states_on_disk h !! Name_to_str (base_prefix svs)) as [gs|] eqn:Hg;
    run_eff; [|done].
  rewrite lookup_insert_eq. run_eff. rewrite with_states_insert_twice.
  destruct (decode_pointer (data_content pkt)) as [obj_pointer|e]; run_eff; [done|].
  by destruct (caught_pointer e); run_eff.
Qed.

Lemma fetch_packet_eq (svs : PassiveSvs) (node_id : string) (pkt : Packet) (h : Handle) :
  fetch_packet svs node_id pkt h =
  match on_packet svs node_id pkt h with
  | (h1, t1, Ok (Some segs)) =>
      let '(h2, t2, r) := for_ segs on_segment h1 in (h2, t1 ++ t2, r)
  | (h1, t1, Ok None) => (h1, t1, Ok tt)
  | (h1, t1, Raise e) => (h1, t1, Raise e)
  end.
Proof.
  unfold fetch_packet. rewrite bind_run.
  destruct (on_packet svs node_id pkt h) as [[h1 t1] [[segs|]|e]]; run_eff; [done| |done].
  by rewrite (right_id_L [] (++)).
Qed.

Definition put_event (pkt : Packet) : Event := EvPutData (data_name pkt) (data_bytes pkt).

(** Storing the segments of a pointer always goes through and leaves the
    table alone. *)
Lemma for_segments_run (segs : list Packet) (h : Handle) :
  result_of (for_ segs on_segment h) = Ok tt ∧
  states_on_disk (handle_of (for_ segs on_segment h)) = states_on_disk h ∧
  trace_of (for_ segs on_segment h) = put_event <$> segs.
Proof.
  revert h. induction segs as [|seg segs IH]; intros h; [done|].
  cbn [for_]. run_eff.
  destruct (IH (store_packet (data_name seg) (data_bytes seg) h)) as (Hr & Hs & Ht).
  destruct (for_ segs on_segment _) as [[h2 t2] r]. cbn in *. by subst.
Qed.

(** The stored group records are the same in both handles. *)
Definition storage_keeps_states (h h' : Handle) : Prop :=
  sync_states (storage h') = sync_states (storage h).

Lemma for_segments_states (segs : list Packet) (h : Handle) :
  storage_keeps_states h (handle_of (for_ segs on_segment h)).
Proof.
  unfold storage_keeps_states. revert h. induction segs as [|seg segs IH]; intros h; [done|].
  cbn [for_]. run_eff.
  specialize (IH (store_packet (data_name seg) (data_bytes seg) h)).
  by destruct (for_ segs on_segment _) as [[h2 t2] r].
Qed.

(** *** Every block of the pass follows the log *)

Lemma follows_same_table (g p : string) (h h' : Handle) (tr : list Event) :
  states_on_disk h' = states_on_disk h → history g p tr = [] → follows g p h tr h'.
Proof.
  intros Hs Ht. unfold follows, fetched_of, dedupe_flag_of. by rewrite Hs, Ht.
Qed.

Lemma on_packet_follows (g p : string) (svs : PassiveSvs) (node_id : string) (pkt : Packet) :
  sat (follows g p) (on_packet svs node_id pkt).
Proof.
  intros h. rewrite on_packet_eq. cbn zeta.
  destruct (last (data_name pkt)) as [c|]; [|by apply follows_same_table].
  destruct (states_on_disk h !! Name_to_str (base_prefix svs)) as [gs|] eqn:Hg;
    [|by apply follows_same_table].
  set (g0 := Name_to_str (base_prefix svs)) in *.
  set (n := Component_to_number c).
  set (gs' := set_svs_client_states _ _).
  assert (Hcore :
    follows g p h
      [EvPutData (data_name pkt) (data_bytes pkt); EvSetFetched g0 node_id n;
       EvAddSyncStates (base_prefix svs) gs']
      (store_states (base_prefix svs) gs'
         (with_states_on_disk (insert g0 gs')
            (store_packet (data_name pkt) (data_bytes pkt) h)))).
  { split.
    - unfold fetched_of at 1. cbn.
      destruct (decide (g0 = g ∧ node_id = p)) as [[-> ->]|Hne].
      + rewrite lookup_insert_eq. cbn. by rewrite lookup_insert_eq.
      + destruct (decide (g0 = g)) as [->|Hg0].
        * rewrite lookup_insert_eq. cbn. rewrite lookup_insert_ne by (intros ->; logic).
          unfold fetched_of. by rewrite Hg.
        * by rewrite lookup_insert_ne.
    - unfold dedupe_flag_of. cbn.
      destruct (decide (g0 = g)) as [->|Hg0].
      + by rewrite lookup_insert_eq, Hg.
      + by rewrite lookup_insert_ne. }
  destruct (decode_pointer (data_content pkt)) as [obj_pointer|e]; [|done].
  cbn [handle_of trace_of fst snd].
  eapply (trace_rel_trans (T:=follows g p)); [exact Hcore|].
  by apply follows_same_table.
Qed.

Lemma fetch_packet_follows (g p : string) (svs : PassiveSvs) (node_id : string) (pkt : Packet) :
  sat (follows g p) (fetch_packet svs node_id pkt).
Proof.
  apply sat_bind; [apply _ | apply on_packet_follows |].
  intros [segs|]; [|apply sat_ret; apply _].
  intros h. destruct (for_segments_run segs h) as (_ & Hs & Ht).
  apply follows_same_table; [done|]. rewrite Ht.
  clear. by induction segs.
Qed.

Lemma enter_node_follows (g p : string) (svs : PassiveSvs) (node_id : string) (seq : Z) :
  sat (follows g p) (enter_node svs node_id seq).
Proof.
  intros h. rewrite enter_node_eq. cbn zeta.
  destruct (states_on_disk h !! _); [|by apply follows_same_table].
  case_bool_decide; by apply follows_same_table.
Qed.

Lemma fetch_node_follows (g p : string) (svs : PassiveSvs) (item : string * Z) :
  sat (follows g p) (fetch_node svs item).
Proof.
  destruct item as [node_id seq]. apply sat_bind; [apply _ | apply enter_node_follows |].
  intros [pkts|]; [|apply sat_ret; apply _].
  apply sat_for; [apply _|]. intros pkt. apply fetch_packet_follows.
Qed.

(** *** One packet *)

(** What the handle does about the pointer of a packet, when the network is
    [net]: nothing unless the content decodes to a name. *)
Definition pointer_trace (net : Net) (pkt : Packet) : list Event :=
  match decode_pointer (data_content pkt) with
  | Ok obj_pointer =>
      EvFetch (pointer_args obj_pointer)
      :: (put_event <$> (concurrent_fetcher net (pointer_args obj_pointer)).1)
  | Raise _ => []
  end.

(** How the processing of a packet ends. *)
Definition pointer_result (pkt : Packet) : Res unit :=
  match decode_pointer (data_content pkt) with
  | Ok _ => Ok tt
  | Raise e => if caught_pointer e then Ok tt else Raise e
  end.

(** The record of the group after a packet numbered [n] of [node_id]. *)
Definition advance (svs : PassiveSvs) (node_id : string) (n : Z) (gs : GroupStates)
    : GroupStates :=
  set_svs_client_states (encode_into_states svs) (set_fetched node_id n gs).

Lemma fetch_packet_run (svs : PassiveSvs) (node_id : string) (pkt : Packet) (h : Handle)
    (c : Component) (gs : GroupStates) :
  last (data_name pkt) = Some c →
  states_on_disk h !! Name_to_str (base_prefix svs) = Some gs →
  let g := Name_to_str (base_prefix svs) in
  let n := Component_to_number c in
  let o := fetch_packet svs node_id pkt h in
  trace_of o
  = [put_event pkt; EvSetFetched g node_id n;
     EvAddSyncStates (base_prefix svs) (advance svs node_id n gs)]
    ++ pointer_trace (network h) pkt ∧
  result_of o = pointer_result pkt ∧
  states_on_disk (handle_of o) = <[g := advance svs node_id n gs]> (states_on_disk h) ∧
  sync_states (storage (handle_of o))
  = <[g := advance svs node_id n gs]> (sync_states (storage h)).
Proof.
  intros Hc Hg. cbn zeta. rewrite fetch_packet_eq, on_packet_eq. cbn zeta.
  rewrite Hc, Hg. unfold pointer_trace, pointer_result.
  destruct (decode_pointer (data_content pkt)) as [obj_pointer|e].
  - set (h1 := with_network _ _).
    destruct (for_segments_run (concurrent_fetcher (network h) (pointer_args obj_pointer)).1 h1)
      as (Hr & Hs & Ht).
    assert (Hst : storage_keeps_states h1
      (handle_of (for_ (concurrent_fetcher (network h) (pointer_args obj_pointer)).1
                     on_segment h1))) by apply for_segments_states.
    destruct (for_ _ on_segment h1) as [[h2 t2] r]. cbn in *. subst.
    by rewrite Hs, Hst.
  - by destruct (caught_pointer e).
Qed.

(** *** The fetches in a log *)

Definition fetches (tr : list Event) : list FetchArgs :=
  omap (λ e, match e with EvFetch args => Some args | _ => None end) tr.

(** The calls of the fetcher under the sequence-indexed naming convention:
    the call for a range of sequence numbers of a producer. *)
Definition sequence_fetches (tr : list Event) : list FetchArgs :=
  filter (λ args, name_conv args = Some SEQUENCE) (fetches tr).

Lemma fetches_app (t1 t2 : list Event) : fetches (t1 ++ t2) = fetches t1 ++ fetches t2.
Proof. apply omap_app. Qed.

Lemma sequence_fetches_app (t1 t2 : list Event) :
  sequence_fetches (t1 ++ t2) = sequence_fetches t1 ++ sequence_fetches t2.
Proof. unfold sequence_fetches. by rewrite fetches_app, filter_app. Qed.

Lemma fetches_put (pkts : list Packet) : fetches (put_event <$> pkts) = [].
Proof. by induction pkts. Qed.

Lemma history_put (g p : string) (pkts : list Packet) : history g p (put_event <$> pkts) = [].
Proof. by induction pkts. Qed.

Lemma pointer_trace_quiet (g p : string) (net : Net) (pkt : Packet) :
  history g p (pointer_trace net pkt) = [] ∧ sequence_fetches (pointer_trace net pkt) = [].
Proof.
  unfold pointer_trace. destruct (decode_pointer (data_content pkt)) as [ptr|]; [|done].
  change (EvFetch (pointer_args ptr) :: ?l) with ([EvFetch (pointer_args ptr)] ++ l).
  rewrite history_app, sequence_fetches_app, history_put.
  unfold sequence_fetches at 2. by rewrite fetches_put.
Qed.

(** No block of the loop over the packets calls the fetcher for a range of
    sequence numbers. *)
Definition no_sequence_fetch (h : Handle) (tr : list Event) (h' : Handle) : Prop :=
  sequence_fetches tr = [].

#[local] Instance no_sequence_fetch_rel : TraceRel no_sequence_fetch.
Proof.
  split; [done|]. unfold no_sequence_fetch. intros ?????. rewrite sequence_fetches_app.
  by intros -> ->.
Qed.

Lemma fetch_packet_no_sequence_fetch (svs : PassiveSvs) (node_id : string) (pkt : Packet) :
  sat no_sequence_fetch (fetch_packet svs node_id pkt).
Proof.
  apply sat_bind; [apply _ | |].
  - intros h. rewrite on_packet_eq. cbn zeta. unfold no_sequence_fetch.
    destruct (last (data_name pkt)); [|done].
    destruct (states_on_disk h !! _); [|done].
    by destruct (decode_pointer (data_content pkt)).
  - intros [segs|]; [|apply sat_ret; apply _]. intros h.
    destruct (for_segments_run segs h) as (_ & _ & Ht). unfold no_sequence_fetch.
    rewrite Ht. unfold sequence_fetches. by rewrite (fetches_put segs).
Qed.

(** *** The packets of one producer *)

(** The number a packet advances the progress to:
    [Component.to_number(data_name[-1])]. *)
Definition packet_number (pkt : Packet) : option Z :=
  Component_to_number <$> last (data_name pkt).

Lemma group_stays (g p : string) (h h' : Handle) (tr : list Event) :
  follows g p h tr h' → is_Some (states_on_disk h' !! g) ↔ is_Some (states_on_disk h !! g).
Proof.
  intros [_ Hd]. unfold dedupe_flag_of in Hd.
  by rewrite <- !(fmap_is_Some gs_data_name_dedupe), Hd.
Qed.

Lemma for_packets_history (svs : PassiveSvs) (p : string) (pkts : list Packet)
    (nums : list Z) (h : Handle) :
  packet_number <$> pkts = Some <$> nums →
  is_Some (states_on_disk h !! Name_to_str (base_prefix svs)) →
  let g := Name_to_str (base_prefix svs) in
  let o := for_ pkts (fetch_packet svs p) h in
  history g p (trace_of o) `prefix_of` nums ∧
  (result_of o = Ok tt → history g p (trace_of o) = nums).
Proof.
  cbn zeta. revert nums h. induction pkts as [|pkt pkts IH]; intros nums h Hnums Hin.
  { destruct nums; [|done]. by split. }
  destruct nums as [|n nums]; [done|]. cbn in Hnums.
  injection Hnums as Hn Hnums. unfold packet_number in Hn.
  destruct (last (data_name pkt)) as [c|] eqn:Hc; [|done]. injection Hn as <-.
  pose proof Hin as Hin'. destruct Hin as [gs Hg].
  destruct (fetch_packet_run svs p pkt h c gs Hc Hg) as (Ht & Hr & Hs & _).
  pose proof (fetch_packet_follows (Name_to_str (base_prefix svs)) p svs p pkt h) as Hf.
  apply group_stays in Hf. apply (proj2 Hf) in Hin'. clear Hf.
  cbn [for_]. rewrite bind_run.
  destruct (fetch_packet svs p pkt h) as [[h1 t1] r1].
  cbn [trace_of result_of handle_of fst snd] in *.
  assert (Hh1 : history (Name_to_str (base_prefix svs)) p t1 = [Component_to_number c]).
  { rewrite Ht, history_app. rewrite (proj1 (pointer_trace_quiet _ _ _ _)). cbn.
    by rewrite decide_True. }
  destruct r1 as [[]|e].
  - specialize (IH nums h1 Hnums Hin').
    destruct (for_ pkts (fetch_packet svs p) h1) as [[h2 t2] r2].
    cbn [trace_of result_of handle_of fst snd] in *.
    rewrite history_app, Hh1. cbn [List.app]. destruct IH as [IH1 IH2]. split.
    + by apply prefix_cons.
    + intros ->. by rewrite IH2.
  - cbn [trace_of result_of fst snd]. rewrite Hh1. split; [|done].
    apply prefix_cons, prefix_nil.
Qed.

(** *** The producers a block does not serve *)

Definition silent (g p : string) (h : Handle) (tr : list Event) (h' : Handle) : Prop :=
  history g p tr = [].

#[local] Instance silent_rel (g p : string) : TraceRel (silent g p).
Proof.
  split; [done|]. unfold silent. intros ?????. rewrite history_app. by intros -> ->.
Qed.

Lemma fetch_node_silent (g p : string) (svs : PassiveSvs) (node_id : string) (seq : Z) :
  ¬ (Name_to_str (base_prefix svs) = g ∧ node_id = p) →
  sat (silent g p) (fetch_node svs (node_id, seq)).
Proof.
  intros Hne. apply sat_bind; [apply _ | |].
  - intros h. rewrite enter_node_eq. cbn zeta. unfold silent.
    destruct (states_on_disk h !! _); [|done]. by case_bool_decide.
  - intros [pkts|]; [|apply sat_ret; apply _]. apply sat_for; [apply _|]. intros pkt.
    apply sat_bind; [apply _ | |].
    + intros h. rewrite on_packet_eq. cbn zeta. unfold silent.
      destruct (last (data_name pkt)); [|done].
      destruct (states_on_disk h !! _); [|done].
      destruct (decode_pointer (data_content pkt)); cbn; by rewrite decide_False.
    + intros [segs|]; [|apply sat_ret; apply _]. intros h.
      destruct (for_segments_run segs h) as (_ & _ & Ht). unfold silent.
      by rewrite Ht, history_put.
Qed.



(** *** The fetcher *)

(** Modelled from the spec: the contract of the Fetch Primitive
    ([concurrent_fetcher], imported from [..utils]).  Called for the
    inclusive range of sequence numbers [fetched_seq + 1 .. seq] under the
    sequence-indexed naming convention with infinite retry, it yields one
    packet per sequence number of the range, in increasing order, and the
    trailing component of the name of each packet is its sequence
    number. *)
Definition in_order_delivery : Prop :=
  ∀ (net : Net) (data_prefix : Name) (fetched_seq seq : Z),
    packet_number <$> (concurrent_fetcher net (sequence_args data_prefix fetched_seq seq)).1
    = Some <$> seqZ (fetched_seq + 1) (seq - fetched_seq).

(** *** One producer *)

Lemma fetch_node_up_to_date (svs : PassiveSvs) (p : string) (seq : Z) (h : Handle) :
  let g := Name_to_str (base_prefix svs) in
  is_Some (states_on_disk h !! g) →
  (seq ≤ fetched_of h g p)%Z →
  fetch_node svs (p, seq) h = (h, [EvGetFetched g p (fetched_of h g p)], Ok tt).
Proof.
  cbn zeta. intros [gs Hg] Hle. unfold fetch_node. rewrite bind_run, enter_node_eq.
  cbn zeta. rewrite Hg. rewrite bool_decide_eq_false_2 by lia. by run_eff.
Qed.

Lemma fetch_node_behind (svs : PassiveSvs) (p : string) (seq : Z) (h : Handle)
    (gs : GroupStates) :
  in_order_delivery →
  let g := Name_to_str (base_prefix svs) in
  let fetched_seq := fetched_of h g p in
  let o := fetch_node svs (p, seq) h in
  states_on_disk h !! g = Some gs →
  (fetched_seq < seq)%Z →
  ∃ tr,
    trace_of o
    = EvGetFetched g p fetched_seq
      :: EvFetch (sequence_args (data_prefix_of (gs_data_name_dedupe gs) svs p) fetched_seq seq) :: tr ∧
    sequence_fetches tr = [] ∧
    history g p tr `prefix_of` seqZ (fetched_seq + 1) (seq - fetched_seq) ∧
    (result_of o = Ok tt → history g p tr = seqZ (fetched_seq + 1) (seq - fetched_seq)).
Proof.
  intros Hdelivery. cbn zeta. intros Hg Hlt.
  unfold fetch_node. rewrite bind_run, enter_node_eq. cbn zeta. rewrite Hg.
  rewrite bool_decide_eq_true_2 by done.
  set (args := sequence_args _ _ _). set (h1 := with_network _ h).
  pose proof (for_packets_history svs p (concurrent_fetcher (network h) args).1 _ h1
                (Hdelivery _ _ _ _)) as Hh.
  cbn zeta in Hh. destruct Hh as [Hh1 Hh2]; [by eexists|].
  pose proof (sat_for no_sequence_fetch (concurrent_fetcher (network h) args).1
                (fetch_packet svs p) (fetch_packet_no_sequence_fetch svs p) h1) as Hn.
  unfold no_sequence_fetch in Hn.
  destruct (for_ _ (fetch_packet svs p) h1) as [[h2 t2] r2].
  cbn [handle_of trace_of result_of fst snd] in *.
  by exists t2.
Qed.



(** *** The progress in the records written to the storage *)


(** The assignments of the progress ([inl]) and the writes of it to the
    storage ([inr]), in order. *)
Definition progress_log (g p : string) (tr : list Event) : list (Z + Z) :=
  omap (λ e, match e with
             | EvSetFetched g' p' v =>
                 if decide (g' = g ∧ p' = p) then Some (inl v) else None
             | EvAddSyncStates prefix gs =>
                 if decide (Name_to_str prefix = g)
                 then Some (inr (default 0%Z (fetched_dict gs !! p))) else None
             | _ => None
             end) tr.

(** The progress after a log when it is [cur] before, provided every write
    to the storage carries the progress of its time. *)
Fixpoint replay (cur : Z) (l : list (Z + Z)) : option Z :=
  match l with
  | [] => Some cur
  | inl v :: l' => replay v l'
  | inr v :: l' => if decide (v = cur) then replay cur l' else None
  end.


(** The records written to the storage carry the progress of the table. *)
Definition in_step (g p : string) (h : Handle) (tr : list Event) (h' : Handle) : Prop :=
  replay (fetched_of h g p) (progress_log g p tr) = Some (fetched_of h' g p).

Lemma replay_app (cur : Z) (l1 l2 : list (Z + Z)) :
  replay cur (l1 ++ l2) = replay cur l1 ≫= λ mid, replay mid l2.
Proof.
  revert cur. induction l1 as [|[v|v] l1 IH]; intros cur; cbn; [done|apply IH|].
  destruct (decide (v = cur)); [apply IH|done].
Qed.

#[local] Instance in_step_rel (g p : string) : TraceRel (in_step g p).
Proof.
  split; [done|]. unfold in_step. intros h1 t1 h2 t2 h3 H1 H2.
  unfold progress_log. rewrite omap_app. fold (progress_log g p t1) (progress_log g p t2).
  by rewrite replay_app, H1.
Qed.

Lemma in_step_same_table (g p : string) (h h' : Handle) (tr : list Event) :
  states_on_disk h' = states_on_disk h → progress_log g p tr = [] → in_step g p h tr h'.
Proof. intros Hs Ht. unfold in_step, fetched_of. by rewrite Hs, Ht. Qed.

Lemma progress_log_put (g p : string) (pkts : list Packet) :
  progress_log g p (put_event <$> pkts) = [].
Proof. by induction pkts. Qed.

Lemma on_packet_in_step (g p : string) (svs : PassiveSvs) (node_id : string) (pkt : Packet) :
  sat (in_step g p) (on_packet svs node_id pkt).
Proof.
  intros h. rewrite on_packet_eq. cbn zeta.
  destruct (last (data_name pkt)) as [c|]; [|by apply in_step_same_table].
  destruct (states_on_disk h !! Name_to_str (base_prefix svs)) as [gs|] eqn:Hg;
    [|by apply in_step_same_table].
  set (g0 := Name_to_str (base_prefix svs)) in *.
  set (n := Component_to_number c).
  assert (Hcore :
    in_step g p h
      [EvPutData (data_name pkt) (data_bytes pkt); EvSetFetched g0 node_id n;
       EvAddSyncStates (base_prefix svs) (advance svs node_id n gs)]
      (store_states (base_prefix svs) (advance svs node_id n gs)
         (with_states_on_disk (insert g0 (advance svs node_id n gs))
            (store_packet (data_name pkt) (data_bytes pkt) h)))).
  { unfold in_step, fetched_of. cbn. fold g0.
    destruct (decide (g0 = g)) as [<-|Hg0].
    - rewrite lookup_insert_eq, Hg. cbn.
      destruct (decide (node_id = p)) as [->|Hp].
      + rewrite decide_True by done. cbn. rewrite lookup_insert_eq. cbn.
        by rewrite decide_True.
      + rewrite decide_False by (intros [_ ?]; done). cbn.
        rewrite lookup_insert_ne by done. by rewrite decide_True.
    - rewrite lookup_insert_ne by done.
      by rewrite decide_False by (intros [? _]; done). }
  destruct (decode_pointer (data_content pkt)) as [obj_pointer|e]; [|exact Hcore].
  cbn [handle_of trace_of fst snd].
  eapply (trace_rel_trans (T:=in_step g p)); [exact Hcore|].
  by apply in_step_same_table.
Qed.

Lemma fetch_node_in_step (g p : string) (svs : PassiveSvs) (item : string * Z) :
  sat (in_step g p) (fetch_node svs item).
Proof.
  destruct item as [node_id seq]. apply sat_bind; [apply _ | |].
  - intros h. rewrite enter_node_eq. cbn zeta.
    destruct (states_on_disk h !! _); [|by apply in_step_same_table].
    case_bool_decide; by apply in_step_same_table.
  - intros [pkts|]; [|apply sat_ret; apply _].
    apply sat_for; [apply _|]. intros pkt.
    apply sat_bind; [apply _ | apply on_packet_in_step |].
    intros [segs|]; [|apply sat_ret; apply _]. intros h.
    destruct (for_segments_run segs h) as (_ & Hs & Ht).
    apply in_step_same_table; [done|]. by rewrite Ht, progress_log_put.
Qed.




(** *** The progress never regresses *)

Definition never_regresses (g p : string) (h : Handle) (tr : list Event) (h' : Handle)
    : Prop :=
  follows g p h tr h' ∧ Sorted Z.le (fetched_of h g p :: history g p tr).

Lemma Sorted_le_app (a b : Z) (l1 l2 : list Z) :
  Sorted Z.le (a :: l1) → default a (last l1) = b → Sorted Z.le (b :: l2) →
  Sorted Z.le (a :: l1 ++ l2).
Proof.
  revert a. induction l1 as [|x l1 IH]; intros a H1 Hb H2.
  - cbn in *. by subst.
  - apply Sorted_inv in H1 as [H1 Hhd]. apply HdRel_inv in Hhd.
    cbn [List.app]. constructor; [|by constructor].
    apply IH; [done| |done]. rewrite last_cons in Hb. by destruct (last l1).
Qed.

Lemma Sorted_le_prefix_seqZ (m n : Z) (l : list Z) :
  l `prefix_of` seqZ (m + 1) n → Sorted Z.le (m :: l).
Proof.
  revert m n. induction l as [|x l IH]; intros m n [k Hk].
  - repeat constructor.
  - destruct (decide (0 < n)%Z) as [Hn|Hn]; [|by rewrite seqZ_nil in Hk by lia].
    rewrite seqZ_cons in Hk by done. injection Hk as <- Hk.
    constructor; [|constructor; lia].
    apply (IH _ (Z.pred n)). exists k. by rewrite <- Hk.
Qed.

#[local] Instance never_regresses_rel (g p : string) : TraceRel (never_regresses g p).
Proof.
  split.
  - intros h. split; [apply trace_rel_refl|]. repeat constructor.
  - intros h1 t1 h2 t2 h3 [Hf1 Hs1] [Hf2 Hs2]. split.
    + by eapply trace_rel_trans.
    + rewrite history_app. eapply Sorted_le_app; [done| |done].
      symmetry. apply Hf1.
Qed.

Lemma fetch_node_never_regresses (g p : string) (svs : PassiveSvs) (item : string * Z) :
  in_order_delivery → sat (never_regresses g p) (fetch_node svs item).
Proof.
  intros Hdelivery h. destruct item as [node_id seq].
  split; [apply fetch_node_follows|].
  destruct (decide (Name_to_str (base_prefix svs) = g ∧ node_id = p)) as [[<- ->]|Hne];
    [|rewrite (fetch_node_silent g p svs node_id seq Hne h); repeat constructor].
  destruct (states_on_disk h !! Name_to_str (base_prefix svs)) as [gs|] eqn:Hg.
  - destruct (decide (seq ≤ fetched_of h (Name_to_str (base_prefix svs)) p)%Z) as [Hle|Hlt].
    + rewrite fetch_node_up_to_date by (by eexists || done). repeat constructor.
    + destruct (fetch_node_behind svs p seq h gs Hdelivery Hg) as (tr & -> & _ & Hpre & _);
        [lia|].
      by eapply Sorted_le_prefix_seqZ.
  - unfold fetch_node. rewrite bind_run, enter_node_eq. cbn zeta. rewrite Hg.
    repeat constructor.
Qed.

(** ** The range a pass fetches *)


(** ** One packet: order of the steps, pointers *)

Lemma for_segments_stored (segs : list Packet) (h : Handle) (name : Name) :
  is_Some (data_packets (storage h) !! name) ∨ name ∈ data_name <$> segs →
  is_Some (data_packets (storage (handle_of (for_ segs on_segment h))) !! name).
Proof.
  revert h. induction segs as [|seg segs IH]; intros h Hin.
  - destruct Hin as [Hin|Hin]; [done|]. by apply elem_of_nil in Hin.
  - cbn [for_]. run_eff.
    specialize (IH (store_packet (data_name seg) (data_bytes seg) h)).
    destruct (for_ segs on_segment _) as [[h2 t2] r]. cbn [handle_of fst] in *.
    apply IH. cbn. rewrite fmap_cons, elem_of_cons in Hin.
    destruct (decide (name = data_name seg)) as [->|Hne].
    + left. by rewrite lookup_insert_eq.
    + rewrite lookup_insert_ne by done. destruct Hin as [?|[?|?]]; auto. done.
Qed.

Lemma fetch_packet_stored (svs : PassiveSvs) (node_id : string) (pkt : Packet) (h : Handle)
    (name : Name) :
  name = data_name pkt ∨
  (∃ obj_pointer, decode_pointer (data_content pkt) = Ok obj_pointer ∧
     name ∈ data_name <$> (concurrent_fetcher (network h) (pointer_args obj_pointer)).1) →
  is_Some (states_on_disk h !! Name_to_str (base_prefix svs)) →
  is_Some (last (data_name pkt)) →
  is_Some (data_packets (storage (handle_of (fetch_packet svs node_id pkt h))) !! name).
Proof.
  intros Hname [gs Hg] [c Hc]. rewrite fetch_packet_eq, on_packet_eq. cbn zeta.
  rewrite Hc, Hg.
  destruct (decode_pointer (data_content pkt)) as [obj_pointer|e].
  - set (h1 := with_network _ _).
    pose proof (for_segments_stored
      (concurrent_fetcher (network h) (pointer_args obj_pointer)).1 h1 name) as Hst.
    destruct (for_ _ on_segment h1) as [[h2 t2] r]. cbn [handle_of fst] in *.
    apply Hst. destruct Hname as [->|(ptr & [= <-] & Hin)]; [left|by right].
    cbn. by rewrite lookup_insert_eq.
  - destruct Hname as [->|(ptr & ? & _)]; [|done].
    destruct (caught_pointer e); cbn; by rewrite lookup_insert_eq.
Qed.

(** C6.  For a packet the fetcher delivers (its name has a last component,
    its group is in the table), the steps of the handle are, in this order:
    the raw bytes are put into the storage under the name of the packet; the
    progress of the producer is set to the number of the packet; the record
    of the group, which holds this progress together with the state the
    participant exports at this point, is written to the storage in one
    write.  Nothing that follows for this packet writes progress or a
    record: what follows is the fetch of the segments of a pointer.
    Afterwards the record in the storage is the record in the table and the
    packet is in the storage. *)
Theorem store_before_progress (svs : PassiveSvs) (node_id : string) (pkt : Packet)
    (h : Handle) (c : Component) (gs : GroupStates) :
  last (data_name pkt) = Some c →
  states_on_disk h !! Name_to_str (base_prefix svs) = Some gs →
  let g := Name_to_str (base_prefix svs) in
  let n := Component_to_number c in
  let record :=
    {| fetched_dict := <[node_id := n]> (fetched_dict gs);
       svs_client_states := Some (encode_into_states svs);
       gs_data_name_dedupe := gs_data_name_dedupe gs;
       check_status := check_status gs |} in
  let o := fetch_packet svs node_id pkt h in
  trace_of o
  = [EvPutData (data_name pkt) (data_bytes pkt);
     EvSetFetched g node_id n;
     EvAddSyncStates (base_prefix svs) record]
    ++ pointer_trace (network h) pkt ∧
  (∀ g' p', history g' p' (pointer_trace (network h) pkt) = []) ∧
  omap (λ e, match e with EvAddSyncStates q r => Some (q, r) | _ => None end)
       (pointer_trace (network h) pkt) = [] ∧
  states_on_disk (handle_of o) !! g = Some record ∧
  sync_states (storage (handle_of o)) !! g = Some record ∧
  is_Some (data_packets (storage (handle_of o)) !! data_name pkt).
Proof.
  intros Hc Hg. cbn zeta.
  destruct (fetch_packet_run svs node_id pkt h c gs Hc Hg) as (Ht & _ & Hs & Hst).
  split; [exact Ht|]. split; [|split; [|split; [|split]]].
  - intros g' p'. apply pointer_trace_quiet.
  - unfold pointer_trace.
    destruct (decode_pointer (data_content pkt)) as [obj_pointer|]; [|done].
    cbn. generalize (concurrent_fetcher (network h) (pointer_args obj_pointer)).1.
    intros segs. by induction segs.
  - rewrite Hs. apply lookup_insert_eq.
  - rewrite Hst. apply lookup_insert_eq.
  - apply fetch_packet_stored; [by left | by eexists | by eexists].
Qed.



(** ** Group creation *)

(** The record a new group starts with, once the state of its participant
    is exported. *)
Definition initial_states (group : SyncParam) (prefix : Name) : GroupStates :=
  {| fetched_dict := ∅;
     svs_client_states := Some (encode_into_states (PassiveSvs_init (ListName prefix)));
     gs_data_name_dedupe := data_name_dedupe group;
     check_status := ∅ |}.

(** What the handle does about [register_prefix]. *)
Definition register_trace (group : SyncParam) (h : Handle) : list Event :=
  if truthy (register_prefix group) then
    let rp := default [] (register_prefix group) in
    let is_existing := bool_decide (rp ∈ registered_prefixes (storage h)) in
    EvAddRegisteredPrefix rp is_existing
    :: (if negb (register_root h) && negb is_existing then [EvListen rp] else [])
  else [].

Lemma process_group_duplicate (group : SyncParam) (prefix : Name) (h : Handle) :
  sync_prefix group = Some prefix →
  Name_to_str prefix ∈ dom (states_on_disk h) →
  process_group group h = (h, [], Ok tt).
Proof.
  intros Hp Hin. unfold process_group. rewrite Hp. run_eff.
  by rewrite bool_decide_eq_true_2.
Qed.

Lemma process_group_new (group : SyncParam) (prefix : Name) (h : Handle) :
  sync_prefix group = Some prefix →
  Name_to_str prefix ∉ dom (states_on_disk h) →
  let o := process_group group h in
  let new_svs := PassiveSvs_init (ListName prefix) in
  let record := initial_states group prefix in
  result_of o = Ok tt ∧
  trace_of o
  = EvSvsStart new_svs :: register_trace group h
    ++ [EvAddSyncGroup prefix; EvAddSyncStates prefix record] ∧
  states_on_disk (handle_of o) = <[Name_to_str prefix := record]> (states_on_disk h) ∧
  sync_states (storage (handle_of o))
  = <[Name_to_str prefix := record]> (sync_states (storage h)) ∧
  app (handle_of o) = app h ++ [new_svs] ∧
  m_processes (handle_of o) = m_processes h.
Proof.
  intros Hp Hin. cbn zeta. unfold process_group, register_trace. rewrite Hp. run_eff.
  rewrite bool_decide_eq_false_2 by done. run_eff.
  unfold add_registered_prefix_in_storage, add_sync_group_in_storage.
  destruct (truthy (register_prefix group)); run_eff.
  - destruct (negb (register_root h) && negb (bool_decide _)); run_eff;
      by rewrite insert_insert_eq.
  - by rewrite insert_insert_eq.
Qed.

(** The participants a log starts and the group records it writes to the
    storage. *)
Definition starts (tr : list Event) : list PassiveSvs :=
  omap (λ e, match e with EvSvsStart svs => Some svs | _ => None end) tr.

Definition persists (tr : list Event) : list (Name * GroupStates) :=
  omap (λ e, match e with EvAddSyncStates prefix gs => Some (prefix, gs) | _ => None end) tr.

Definition response_of (cmd_param : RepoCommandParam) : RepoCommandRes :=
  {| status_code := IN_PROGRESS;
     res_sync_groups := _init_sync_stat <$> sync_groups cmd_param |}.

(** A group of the command whose prefix is in the table already. *)
Definition duplicate (h : Handle) (group : SyncParam) : Prop :=
  ∃ prefix, sync_prefix group = Some prefix ∧
            Name_to_str prefix ∈ dom (states_on_disk h).

Lemma for_duplicates (groups : list SyncParam) (h : Handle) :
  Forall (duplicate h) groups → for_ groups process_group h = (h, [], Ok tt).
Proof.
  induction 1 as [|group groups (prefix & Hp & Hin) _ IH]; [done|].
  cbn [for_]. rewrite bind_run, (process_group_duplicate group prefix h Hp Hin).
  by rewrite IH.
Qed.

Lemma _process_sync_run (cmd_param : RepoCommandParam) (request_no : Bytes) (h : Handle) :
  _process_sync cmd_param request_no h =
  let '(h', tr, r) :=
    for_ (sync_groups cmd_param) process_group
      (with_m_processes (insert request_no (response_of cmd_param)) h) in
  (h', EvResponse request_no (response_of cmd_param) :: tr, r).
Proof.
  unfold _process_sync. run_eff. fold (response_of cmd_param).
  by destruct (for_ _ process_group _) as [[h' tr] r].
Qed.

Lemma register_trace_quiet (group : SyncParam) (h : Handle) :
  starts (register_trace group h) = [] ∧ persists (register_trace group h) = [].
Proof.
  unfold register_trace. destruct (truthy _); [|done].
  by destruct (negb _ && negb _).
Qed.

(** C3.  A group whose prefix string is in the table is skipped: the
    handle, its table and its storage stay as they are and no collaborator
    is called.  A command all of whose groups are in the table only records
    its response.  When a prefix is submitted twice, the two submissions
    together start one participant and write one group record; after the
    second submission the table and the storage are what the first one
    left. *)
Theorem duplicate_sync_group_is_noop :
  (∀ (h : Handle) (group : SyncParam) (prefix : Name),
     sync_prefix group = Some prefix →
     Name_to_str prefix ∈ dom (states_on_disk h) →
     process_group group h = (h, [], Ok tt)) ∧
  (∀ (h : Handle) (cmd_param : RepoCommandParam) (request_no : Bytes),
     Forall (duplicate h) (sync_groups cmd_param) →
     _process_sync cmd_param request_no h
     = (with_m_processes (insert request_no (response_of cmd_param)) h,
        [EvResponse request_no (response_of cmd_param)], Ok tt)) ∧
  (∀ (h : Handle) (first second : SyncParam) (prefix prefix' : Name)
     (request_no request_no' : Bytes),
     sync_prefix first = Some prefix →
     sync_prefix second = Some prefix' →
     Name_to_str prefix' = Name_to_str prefix →
     Name_to_str prefix ∉ dom (states_on_disk h) →
     let o1 := _process_sync {| sync_groups := [first] |} request_no h in
     let o2 := _process_sync {| sync_groups := [second] |} request_no' (handle_of o1) in
     let record := initial_states first prefix in
     starts (trace_of o1 ++ trace_of o2) = [PassiveSvs_init (ListName prefix)] ∧
     persists (trace_of o1 ++ trace_of o2) = [(prefix, record)] ∧
     app (handle_of o2) = app h ++ [PassiveSvs_init (ListName prefix)] ∧
     states_on_disk (handle_of o2) = states_on_disk (handle_of o1) ∧
     storage (handle_of o2) = storage (handle_of o1) ∧
     states_on_disk (handle_of o2) !! Name_to_str prefix = Some record ∧
     sync_states (storage (handle_of o2)) !! Name_to_str prefix = Some record).
Proof.
  split; [intros h group prefix; apply process_group_duplicate|]. split.
  - intros h cmd_param request_no Hdup. rewrite _process_sync_run.
    by rewrite for_duplicates.
  - intros h first second prefix prefix' request_no request_no' Hp Hp' Hkey Hfresh.
    cbn zeta. rewrite (_process_sync_run _ request_no h). cbn [sync_groups for_].
    rewrite bind_run.
    set (h0 := with_m_processes _ h).
    destruct (process_group_new first prefix h0 Hp Hfresh) as (Hr & Ht & Hs & Hst & Happ & _).
    destruct (process_group first h0) as [[h1 t1] r1].
    cbn [handle_of trace_of result_of fst snd] in *. subst r1. run_eff.
    rewrite (_process_sync_run _ request_no' h1), for_duplicates.
    2:{ repeat constructor. exists prefix'. split; [done|].
        cbn [states_on_disk with_m_processes].
        rewrite Hkey, Hs, dom_insert_L. apply elem_of_union_l. by apply elem_of_singleton. }
    cbn [handle_of trace_of fst snd states_on_disk storage app with_m_processes].
    rewrite Hs, Hst, Happ, !lookup_insert_eq.
    rewrite Ht, app_nil_r.
    split; [|split]; [| |done].
    + unfold starts. cbn. rewrite !omap_app. fold (starts (register_trace first h0)).
      by rewrite (proj1 (register_trace_quiet first h0)).
    + unfold persists. cbn. rewrite !omap_app. fold (persists (register_trace first h0)).
      by rewrite (proj2 (register_trace_quiet first h0)).
Qed.

(** ** Command intake *)

(** What [_on_sync_msg] rejects: the payload does not parse, holds no sync
    group, or holds a group without a sync prefix. *)
Definition malformed (msg : Bytes) : Prop :=
  match RepoCommandParam_parse msg with
  | Raise _ => True
  | Ok cmd_param =>
      sync_groups cmd_param = [] ∨
      ∃ group, group ∈ sync_groups cmd_param ∧ truthy (sync_prefix group) = false
  end.

(** C4.  A malformed payload changes nothing: [_on_sync_msg] returns the
    handle as it was (no response, no participant, no group record, no
    registered prefix) and calls no collaborator, not even to create a
    task; it returns normally when the exception is one of the [except]
    clause. *)
Theorem malformed_command_is_dropped (msg : Bytes) (h : Handle) :
  malformed msg →
  handle_of (_on_sync_msg msg h) = h ∧
  trace_of (_on_sync_msg msg h) = [] ∧
  (∀ e, decode_sync_msg msg = Raise e → (e = DecodeError ∨ e = IndexError) →
        result_of (_on_sync_msg msg h) = Ok tt) ∧
  ∃ e, decode_sync_msg msg = Raise e.
Proof.
  unfold malformed, _on_sync_msg. intros Hbad.
  assert (∃ e, decode_sync_msg msg = Raise e) as [e He].
  { unfold decode_sync_msg. destruct (RepoCommandParam_parse msg) as [cmd_param|e];
      [|by eexists].
    destruct Hbad as [->|(group & Hin & Hfalsy)]; [by eexists|].
    destruct (sync_groups cmd_param) as [|g0 gs0] eqn:Hgroups; [by eexists|].
    destruct (forallb _ _) eqn:Hall; [|by eexists].
    rewrite forallb_forall in Hall. apply list_elem_of_In, Hall in Hin. congruence. }
  rewrite He. split; [|split; [|split]].
  - by destruct (caught_on_sync_msg e).
  - by destruct (caught_on_sync_msg e).
  - intros e' [= <-] [->| ->]; done.
  - by exists e.
Qed.

Definition responses (tr : list Event) : list (Bytes * RepoCommandRes) :=
  omap (λ e, match e with EvResponse r s => Some (r, s) | _ => None end) tr.

Lemma process_group_accepted (group : SyncParam) (h : Handle) :
  truthy (sync_prefix group) = true →
  let o := process_group group h in
  result_of o = Ok tt ∧ m_processes (handle_of o) = m_processes h ∧
  responses (trace_of o) = [].
Proof.
  intros Htruthy. cbn zeta.
  destruct (sync_prefix group) as [prefix|] eqn:Hp; [|done].
  destruct (decide (Name_to_str prefix ∈ dom (states_on_disk h))) as [Hin|Hin].
  - by rewrite (process_group_duplicate group prefix h Hp Hin).
  - destruct (process_group_new group prefix h Hp Hin) as (Hr & Ht & _ & _ & _ & Hm).
    split; [done|]. split; [done|]. rewrite Ht. unfold responses. cbn.
    rewrite omap_app. cbn. rewrite app_nil_r.
    unfold register_trace. destruct (truthy (register_prefix group)); [|done].
    by destruct (negb _ && negb _).
Qed.

Lemma for_groups_accepted (groups : list SyncParam) (h : Handle) :
  Forall (λ group, truthy (sync_prefix group) = true) groups →
  let o := for_ groups process_group h in
  result_of o = Ok tt ∧ m_processes (handle_of o) = m_processes h ∧
  responses (trace_of o) = [].
Proof.
  cbn zeta. intros Hall. revert h. induction Hall as [|group groups Hg _ IH]; intros h; [done|].
  cbn [for_]. rewrite bind_run.
  destruct (process_group_accepted group h Hg) as (Hr & Hm & Ht).
  destruct (process_group group h) as [[h1 t1] r1].
  cbn [handle_of trace_of result_of fst snd] in *. subst r1.
  destruct (IH h1) as (Hr' & Hm' & Ht').
  destruct (for_ groups process_group h1) as [[h2 t2] r2].
  cbn [handle_of trace_of result_of fst snd] in *.
  split; [done|]. split; [congruence|].
  unfold responses in *. by rewrite omap_app, Ht, Ht'.
Qed.

(** C9.  For a payload that parses into a command with at least one group,
    all with a sync prefix: [_on_sync_msg] hands [_process_sync] the command
    with the SHA-256 digest of the payload as request number, and touches
    nothing else; [_process_sync] first records, under that request number,
    a response with status [IN_PROGRESS] and one entry per group, in order,
    each with the prefix of the group, status [ROGER] and insert count 0;
    it records no other response, its run ends normally, and the response
    is in [m_processes] when it ends. *)
Theorem accepted_command_is_acknowledged (msg : Bytes) (cmd_param : RepoCommandParam)
    (h h0 : Handle) :
  RepoCommandParam_parse msg = Ok cmd_param →
  sync_groups cmd_param ≠ [] →
  Forall (λ group, truthy (sync_prefix group) = true) (sync_groups cmd_param) →
  let request_no := sha256 msg in
  let stat :=
    {| status_code := IN_PROGRESS;
       res_sync_groups :=
         (λ group, {| ss_name := sync_prefix group; ss_status_code := ROGER;
                      ss_insert_num := 0%Z |}) <$> sync_groups cmd_param |} in
  let o := _process_sync cmd_param request_no h0 in
  _on_sync_msg msg h = (h, [EvCreateTask (Process_sync cmd_param request_no)], Ok tt) ∧
  (∃ tr, trace_of o = EvResponse request_no stat :: tr ∧ responses tr = []) ∧
  m_processes (handle_of o) = <[request_no := stat]> (m_processes h0) ∧
  m_processes (handle_of o) !! request_no = Some stat ∧
  length (res_sync_groups stat) = length (sync_groups cmd_param) ∧
  result_of o = Ok tt.
Proof.
  intros Hparse Hne Hall. cbn zeta. split.
  - unfold _on_sync_msg, decode_sync_msg. rewrite Hparse.
    destruct (sync_groups cmd_param) as [|g0 gs0] eqn:Hgroups; [done|].
    rewrite <- Hgroups in *. clear Hgroups.
    assert (forallb (λ group, truthy (sync_prefix group)) (sync_groups cmd_param) = true)
      as ->; [|done].
    apply forallb_forall. intros group Hin. rewrite Forall_forall in Hall.
    by apply Hall, list_elem_of_In.
  - rewrite _process_sync_run.
    destruct (for_groups_accepted (sync_groups cmd_param)
                (with_m_processes (insert (sha256 msg) (response_of cmd_param)) h0) Hall)
      as (Hr & Hm & Ht).
    destruct (for_ _ process_group _) as [[h' tr] r].
    cbn [handle_of trace_of result_of fst snd] in *. subst r.
    split; [by exists tr|]. split; [exact Hm|]. split; [|split; [|done]].
    + rewrite Hm. apply lookup_insert_eq.
    + cbn. by rewrite length_fmap.
Qed.

(** ** Recovery *)

(** The participant [recover_from_states] builds from an item of the
    table. *)
Definition recovered (item : string * GroupStates) : PassiveSvs :=
  decode_from_states (PassiveSvs_init (StrName item.1)) (svs_client_states item.2).

Lemma for_recover_group (items : list (string * GroupStates)) (h : Handle) :
  for_ items recover_group h
  = (with_app (λ l, l ++ (recovered <$> items)) h,
     EvSvsStart <$> (recovered <$> items), Ok tt).
Proof.
  revert h. induction items as [|[sync_group group_states] items IH]; intros h.
  - cbn. unfold with_app. rewrite app_nil_r. by destruct h.
  - cbn [for_]. rewrite bind_run. unfold recover_group at 1. run_eff.
    rewrite IH. unfold with_app. cbn. by rewrite <- (assoc_L (++)).
Qed.

(** C10.  [recover_from_states] takes the given table as the table of the
    handle, builds for every record a participant from the saved state and
    starts it, and does nothing else: its log holds the starts of the
    participants only (no call of the fetcher, no write to the storage),
    the records of the table are the given ones, the storage and the
    network are untouched.  The callback of a participant creates the task
    of a pass: no fetch is made before a participant calls it. *)
Theorem recovery_is_fetch_free (states : gmap string GroupStates) (h : Handle) :
  let o := recover_from_states states h in
  result_of o = Ok tt ∧
  trace_of o = EvSvsStart <$> (recovered <$> map_to_list states) ∧
  fetches (trace_of o) = [] ∧
  persists (trace_of o) = [] ∧
  states_on_disk (handle_of o) = states ∧
  storage (handle_of o) = storage h ∧
  network (handle_of o) = network h ∧
  app (handle_of o) = app h ++ (recovered <$> map_to_list states) ∧
  (∀ svs h', on_missing_data svs h' = (h', [EvCreateTask (Fetch_missing_data svs)], Ok tt)).
Proof.
  cbn zeta. unfold recover_from_states. run_eff. rewrite for_recover_group.
  cbn [handle_of trace_of result_of fst snd states_on_disk storage network app
       with_app with_states_on_disk List.app].
  repeat split.
  - generalize (recovered <$> map_to_list states). intros l. by induction l.
  - generalize (recovered <$> map_to_list states). intros l. by induction l.
Qed.

(** ** The name a range is fetched under *)

(** C7.  The name the fetcher is called with for a producer is the name of
    the producer followed by the prefix of the group, as it is when the
    dedupe flag of the group is unset; when the flag is set, every
    component that already appeared earlier in the name is removed: each
    component is kept where it occurs first, the order of the kept
    components is theirs in the name, and no component is lost.  The
    components [A, B, A, C, B] become [A, B, C]. *)
Theorem dedupe_keeps_first_occurrences (svs : PassiveSvs) (node_id : string) :
  let node_name := Name_from_str node_id ++ base_prefix svs in
  data_prefix_of false svs node_id = node_name ∧
  data_prefix_of true svs node_id = first_occurrences [] node_name ∧
  NoDup (data_prefix_of true svs node_id) ∧
  (∀ c, c ∈ data_prefix_of true svs node_id ↔ c ∈ node_name) ∧
  sublist (data_prefix_of true svs node_id) node_name ∧
  (∀ (h : Handle) (gs : GroupStates) (seq : Z),
     states_on_disk h !! Name_to_str (base_prefix svs) = Some gs →
     (fetched_of h (Name_to_str (base_prefix svs)) node_id < seq)%Z →
     fetch_name <$> fetches (trace_of (enter_node svs node_id seq h))
     = [if gs_data_name_dedupe gs then first_occurrences [] node_name else node_name]) ∧
  (∀ A B C : Component, A ≠ B → A ≠ C → B ≠ C →
     dedupe [A; B; A; C; B] = [A; B; C]).
Proof.
  cbn zeta. unfold data_prefix_of. rewrite dedupe_first_occurrences.
  split; [done|]. split; [done|]. split; [apply first_occurrences_NoDup|].
  split; [|split; [apply first_occurrences_sublist|split]].
  - intros c. rewrite first_occurrences_elem. split; [logic|].
    intros Hc. split; [done|]. apply not_elem_of_nil.
  - intros h gs seq Hg Hlt. rewrite enter_node_eq. cbn zeta. rewrite Hg.
    rewrite bool_decide_eq_true_2 by done. cbn. unfold data_prefix_of.
    by rewrite dedupe_first_occurrences.
  - intros A B C HAB HAC HBC. rewrite dedupe_first_occurrences.
    cbn [first_occurrences List.app].
    rewrite (decide_False (P := A ∈ [])) by (rewrite elem_of_nil; logic).
    cbn [List.app].
    rewrite (decide_False (P := B ∈ [A]))
      by (rewrite elem_of_cons, elem_of_nil; logic_eq).
    cbn [List.app].
    rewrite (decide_True (P := A ∈ [A; B])) by (rewrite elem_of_cons; logic).
    rewrite (decide_False (P := C ∈ [A; B]))
      by (rewrite !elem_of_cons, elem_of_nil; logic_eq).
    cbn [List.app].
    by rewrite (decide_True (P := B ∈ [A; B; C])) by (rewrite !elem_of_cons; logic).
Qed.

(** ** Passes under the event loop *)












(** * Further properties of the handle *)

(** ** Loops that keep an invariant *)

(** A loop whose body, from a handle that has property [I], returns and
    leaves a handle that has it, returns and leaves such a handle. *)
Lemma for_returns {A} (I : Handle → Prop) (l : list A) (body : A → Eff unit) (h : Handle) :
  (∀ x h, x ∈ l → I h → result_of (body x h) = Ok tt ∧ I (handle_of (body x h))) →
  I h →
  result_of (for_ l body h) = Ok tt ∧ I (handle_of (for_ l body h)).
Proof.
  revert h. induction l as [|x l IH]; intros h Hbody Hh; [done|].
  cbn [for_]. rewrite bind_run.
  destruct (Hbody x h) as [Hr Hi]; [apply list_elem_of_here | done |].
  destruct (body x h) as [[h1 t1] r1]. cbn [result_of handle_of fst snd] in Hr, Hi.
  subst r1. specialize (IH h1).
  destruct (for_ l body h1) as [[h2 t2] r2]. cbn [result_of handle_of fst snd] in *.
  apply IH; [|done]. intros y h' Hy. apply Hbody. by apply list_elem_of_further.
Qed.

(** A relation on logs that every body of a loop keeps is kept by the
    loop, when only the items of the loop are looked at. *)
Lemma sat_for_elem {A} (T : Handle → list Event → Handle → Prop) `{!TraceRel T}
    (l : list A) (body : A → Eff unit) :
  (∀ x, x ∈ l → sat T (body x)) → sat T (for_ l body).
Proof.
  induction l as [|x l IH]; intros Hbody; [apply sat_ret; apply _|].
  cbn [for_]. apply sat_bind; [apply _ | apply Hbody, list_elem_of_here |].
  intros _. apply IH. intros y Hy. apply Hbody. by apply list_elem_of_further.
Qed.

(** ** A pass for a group that is not in the table *)

(** X1.  When the table has no entry for the group of the participant, a
    pass over a vector with at least one producer raises [KeyError] at the
    first subscript of the table, before any call to the fetcher and with
    the handle as it was; over an empty vector the pass returns and does
    nothing. *)
Theorem pass_of_unknown_group (svs : PassiveSvs) (h : Handle) :
  states_on_disk h !! Name_to_str (base_prefix svs) = None →
  fetch_missing_data svs h
  = (h, [], match local_sv svs with [] => Ok tt | _ :: _ => Raise KeyError end).
Proof.
  intros Hg. unfold fetch_missing_data.
  destruct (local_sv svs) as [|[node_id seq] items]; [done|].
  cbn [for_]. rewrite bind_run. unfold fetch_node.
  rewrite bind_run, enter_node_eq. cbn zeta. by rewrite Hg.
Qed.

(** ** Packets that end a pass *)

(** X2.  The first producer of the vector is behind and the fetcher yields,
    first, a packet whose name has no component.  The pass stores the
    packet under the empty name and then raises [IndexError] at
    [data_name[-1]]: the progress, the table and the records in the
    storage stay as they were, the other packets are not stored and the
    other producers are not looked at. *)
Theorem packet_without_name_ends_pass (svs : PassiveSvs) (h : Handle) (p : string)
    (seq : Z) (post : list (string * Z)) (gs : GroupStates) (pkt : Packet)
    (pkts : list Packet) :
  let g := Name_to_str (base_prefix svs) in
  let fetched_seq := fetched_of h g p in
  let args :=
    {| fetch_name := data_prefix_of (gs_data_name_dedupe gs) svs p;
       start_id := fetched_seq + 1; end_id := Some seq; semaphore := 10;
       name_conv := Some SEQUENCE; max_retries := Some (-1) |}%Z in
  local_sv svs = (p, seq) :: post →
  states_on_disk h !! g = Some gs →
  (fetched_seq < seq)%Z →
  (concurrent_fetcher (network h) args).1 = pkt :: pkts →
  data_name pkt = [] →
  let o := fetch_missing_data svs h in
  result_of o = Raise IndexError ∧
  trace_of o = [EvGetFetched g p fetched_seq; EvFetch args; EvPutData [] (data_bytes pkt)] ∧
  states_on_disk (handle_of o) = states_on_disk h ∧
  sync_states (storage (handle_of o)) = sync_states (storage h) ∧
  data_packets (storage (handle_of o)) = <[[] := data_bytes pkt]> (data_packets (storage h)).
Proof.
  cbn zeta. intros Hsv Hg Hlt Hpkts Hname. unfold fetch_missing_data. rewrite Hsv.
  cbn [for_]. rewrite bind_run. unfold fetch_node.
  rewrite bind_run, enter_node_eq. cbn zeta. rewrite Hg.
  rewrite bool_decide_eq_true_2 by done. unfold sequence_args. rewrite Hpkts.
  cbn [for_]. rewrite bind_run, fetch_packet_eq, on_packet_eq. cbn zeta.
  rewrite Hname. cbn [last]. by cbn.
Qed.

(** X3.  A packet with a name, for a group of the table, whose content
    makes [parse_data] or [Name.from_bytes] raise an exception that is not
    a [TypeError], an [IndexError] or a [ValueError].  The loop over the
    packets has stored the packet, assigned the progress and written the
    group record when the exception is raised; the exception leaves the
    loop, so the packets after this one are not handled, and the progress
    of the producer is the number of this packet. *)
Theorem pointer_error_of_other_class_ends_pass (svs : PassiveSvs) (node_id : string)
    (pkt : Packet) (pkts : list Packet) (h : Handle) (c : Component) (gs : GroupStates)
    (e : PyExc) :
  last (data_name pkt) = Some c →
  states_on_disk h !! Name_to_str (base_prefix svs) = Some gs →
  decode_pointer (data_content pkt) = Raise e →
  e ≠ TypeError → e ≠ IndexError → e ≠ ValueError →
  let g := Name_to_str (base_prefix svs) in
  let n := Component_to_number c in
  let record :=
    {| fetched_dict := <[node_id := n]> (fetched_dict gs);
       svs_client_states := Some (encode_into_states svs);
       gs_data_name_dedupe := gs_data_name_dedupe gs;
       check_status := check_status gs |} in
  let o := for_ (pkt :: pkts) (fetch_packet svs node_id) h in
  result_of o = Raise e ∧
  trace_of o
  = [EvPutData (data_name pkt) (data_bytes pkt); EvSetFetched g node_id n;
     EvAddSyncStates (base_prefix svs) record] ∧
  fetched_of (handle_of o) g node_id = n ∧
  states_on_disk (handle_of o) = <[g := record]> (states_on_disk h) ∧
  sync_states (storage (handle_of o)) = <[g := record]> (sync_states (storage h)).
Proof.
  cbn zeta. intros Hc Hg Hdec H1 H2 H3.
  assert (Hcaught : caught_pointer e = false) by (by destruct e).
  cbn [for_]. rewrite bind_run, fetch_packet_eq, on_packet_eq. cbn zeta.
  rewrite Hc, Hg, Hdec, Hcaught. cbn [result_of trace_of handle_of fst snd].
  split; [done|]. split; [done|]. split; [|by split].
  unfold fetched_of. cbn. rewrite lookup_insert_eq. cbn. by rewrite lookup_insert_eq.
Qed.

(** ** Passes that return *)

(** A packet the pass gets through: its name has a last component and its
    content either holds a pointer or makes the decoding raise one of the
    exceptions the pass catches. *)
Definition well_behaved (pkt : Packet) : Prop :=
  data_name pkt ≠ [] ∧
  ∀ e, decode_pointer (data_content pkt) = Raise e → caught_pointer e = true.

Lemma fetch_packet_returns (svs : PassiveSvs) (node_id : string) (pkt : Packet) (h : Handle) :
  well_behaved pkt →
  is_Some (states_on_disk h !! Name_to_str (base_prefix svs)) →
  result_of (fetch_packet svs node_id pkt h) = Ok tt ∧
  is_Some (states_on_disk (handle_of (fetch_packet svs node_id pkt h))
             !! Name_to_str (base_prefix svs)).
Proof.
  intros [Hname Hdec] Hin. split.
  - destruct Hin as [gs Hg].
    destruct (last (data_name pkt)) as [c|] eqn:Hc;
      [|by apply last_None in Hc].
    destruct (fetch_packet_run svs node_id pkt h c gs Hc Hg) as (_ & -> & _).
    unfold pointer_result.
    destruct (decode_pointer (data_content pkt)) as [?|e] eqn:He; [done|].
    by rewrite (Hdec e).
  - eapply group_stays; [|exact Hin].
    apply (fetch_packet_follows _ node_id svs node_id pkt h).
Qed.

Lemma fetch_node_returns (svs : PassiveSvs) (item : string * Z) (h : Handle) :
  (∀ net args, Forall well_behaved (concurrent_fetcher net args).1) →
  is_Some (states_on_disk h !! Name_to_str (base_prefix svs)) →
  result_of (fetch_node svs item h) = Ok tt ∧
  is_Some (states_on_disk (handle_of (fetch_node svs item h))
             !! Name_to_str (base_prefix svs)).
Proof.
  intros Hfetcher Hin. destruct item as [node_id seq]. pose proof Hin as [gs Hg].
  unfold fetch_node. rewrite bind_run, enter_node_eq. cbn zeta. rewrite Hg.
  case_bool_decide; [|by run_eff].
  set (args := sequence_args _ _ _). set (h1 := with_network _ h).
  pose proof (for_returns
    (λ h, is_Some (states_on_disk h !! Name_to_str (base_prefix svs)))
    (concurrent_fetcher (network h) args).1 (fetch_packet svs node_id) h1) as Hloop.
  destruct (for_ _ (fetch_packet svs node_id) h1) as [[h2 t2] r2].
  cbn [result_of handle_of fst snd] in *. apply Hloop; [|done].
  intros pkt h' Hpkt Hh'. apply fetch_packet_returns; [|done].
  pose proof (Hfetcher (network h) args) as Hall.
  rewrite Forall_forall in Hall. by apply Hall.
Qed.

(** X4.  With a fetcher that yields well-behaved packets only, a pass for
    a group of the table returns: it raises no exception, whatever the
    vector and the progress are, and the group is still in the table. *)
Theorem pass_returns (svs : PassiveSvs) (h : Handle) :
  (∀ net args, Forall well_behaved (concurrent_fetcher net args).1) →
  is_Some (states_on_disk h !! Name_to_str (base_prefix svs)) →
  result_of (fetch_missing_data svs h) = Ok tt ∧
  is_Some (states_on_disk (handle_of (fetch_missing_data svs h))
             !! Name_to_str (base_prefix svs)).
Proof.
  intros Hfetcher Hin. unfold fetch_missing_data.
  apply (for_returns
    (λ h, is_Some (states_on_disk h !! Name_to_str (base_prefix svs)))); [|done].
  intros item h' _ Hh'. by apply fetch_node_returns.
Qed.

(** ** Commands and passes as tasks of one event loop *)

(** [_process_sync] is a coroutine too, made a task by [_on_sync_msg]; it
    has no [await], so the task runs from its start to its end in one
    step. *)
Definition process_sync_task (cmd_param : RepoCommandParam) (request_no : Bytes) : Task :=
  Await (_process_sync cmd_param request_no ≫= λ _, mret Done).

(** The task [aio.create_task] makes of a coroutine. *)
Definition task_of (c : Coroutine) : Task :=
  match c with
  | Process_sync cmd_param request_no => process_sync_task cmd_param request_no
  | Fetch_missing_data svs => fetch_missing_data_task svs
  end.

(** Every step of the task keeps the relation [T]. *)
Inductive steps_keep (T : Handle → list Event → Handle → Prop) : Task → Prop :=
| steps_keep_done : steps_keep T Done
| steps_keep_await (k : Eff Task) :
    (∀ h, T h (trace_of (k h)) (handle_of (k h))) →
    (∀ h t', result_of (k h) = Ok t' → steps_keep T t') →
    steps_keep T (Await k).

(** The blocks of the file between two suspension points keep [T]. *)
Definition kept_by_blocks (T : Handle → list Event → Handle → Prop) : Prop :=
  (∀ svs node_id seq, sat T (enter_node svs node_id seq)) ∧
  (∀ svs node_id pkt, sat T (on_packet svs node_id pkt)) ∧
  (∀ seg, sat T (on_segment seg)) ∧
  (∀ cmd_param request_no, sat T (_process_sync cmd_param request_no)).

Lemma fetch_packet_sat (T : Handle → list Event → Handle → Prop) `{!TraceRel T}
    (svs : PassiveSvs) (node_id : string) (pkt : Packet) :
  kept_by_blocks T → sat T (fetch_packet svs node_id pkt).
Proof.
  intros (_ & Hpacket & Hsegment & _).
  apply sat_bind; [apply _ | apply Hpacket |].
  intros [segs|]; [|apply sat_ret; apply _]. by apply sat_for; [apply _|].
Qed.

Lemma fetch_node_sat (T : Handle → list Event → Handle → Prop) `{!TraceRel T}
    (svs : PassiveSvs) (item : string * Z) :
  kept_by_blocks T → sat T (fetch_node svs item).
Proof.
  intros Hblocks. pose proof Hblocks as (Henter & _). destruct item as [node_id seq].
  apply sat_bind; [apply _ | apply Henter |].
  intros [pkts|]; [|apply sat_ret; apply _]. apply sat_for; [apply _|]. intros pkt.
  by apply fetch_packet_sat.
Qed.

Lemma fetch_missing_data_sat (T : Handle → list Event → Handle → Prop) `{!TraceRel T}
    (svs : PassiveSvs) :
  kept_by_blocks T → sat T (fetch_missing_data svs).
Proof.
  intros Hblocks. unfold fetch_missing_data. apply sat_for; [apply _|]. intros item.
  by apply fetch_node_sat.
Qed.

Lemma await_segments_keeps (T : Handle → list Event → Handle → Prop) `{!TraceRel T}
    (segs : list Packet) (k : Task) :
  kept_by_blocks T → steps_keep T k → steps_keep T (await_segments segs k).
Proof.
  intros (_ & _ & Hsegment & _) Hk.
  induction segs as [|seg segs IH]; cbn [await_segments]; constructor.
  - intros h. rewrite ret_run. apply trace_rel_refl.
  - intros h t'. rewrite ret_run. cbn. by intros [= <-].
  - apply sat_bind; [apply _ | apply Hsegment |]. intros _. apply sat_ret; apply _.
  - intros h t'. rewrite bind_run, on_segment_run, ret_run. cbn. by intros [= <-].
Qed.

Lemma await_packets_keeps (T : Handle → list Event → Handle → Prop) `{!TraceRel T}
    (svs : PassiveSvs) (node_id : string) (pkts : list Packet) (k : Eff Task) :
  kept_by_blocks T →
  sat T k → (∀ h t', result_of (k h) = Ok t' → steps_keep T t') →
  steps_keep T (await_packets svs node_id pkts k).
Proof.
  intros Hblocks Hk1 Hk2. pose proof Hblocks as (_ & Hpacket & _ & _).
  induction pkts as [|pkt pkts IH]; cbn [await_packets]; constructor; [done..| |].
  - apply sat_bind; [apply _ | apply Hpacket |].
    intros [segs|]; apply sat_ret; apply _.
  - intros h t'. rewrite bind_run.
    destruct (on_packet svs node_id pkt h) as [[h1 t1] [[segs|]|e]];
      rewrite ?ret_run; cbn; [| |done].
    + intros [= <-]. by apply await_segments_keeps.
    + by intros [= <-].
Qed.

Lemma next_nodes_keeps (T : Handle → list Event → Handle → Prop) `{!TraceRel T}
    (svs : PassiveSvs) (items : list (string * Z)) :
  kept_by_blocks T →
  sat T (next_nodes svs items) ∧
  ∀ h t', result_of (next_nodes svs items h) = Ok t' → steps_keep T t'.
Proof.
  intros Hblocks. pose proof Hblocks as (Henter & _ & _ & _).
  induction items as [|[node_id seq] items [IH1 IH2]]; cbn [next_nodes].
  - split; [apply sat_ret; apply _|]. intros h t'. rewrite ret_run. cbn.
    intros [= <-]. constructor.
  - split.
    + apply sat_bind; [apply _ | apply Henter |].
      intros [pkts|]; [apply sat_ret; apply _ | done].
    + intros h t'. rewrite bind_run.
      destruct (enter_node svs node_id seq h) as [[h1 t1] [[pkts|]|e]];
        rewrite ?ret_run; cbn; [| |done].
      * intros [= <-]. by apply await_packets_keeps.
      * specialize (IH2 h1 t').
        destruct (next_nodes svs items h1) as [[h2 t2] r2]. cbn in *. exact IH2.
Qed.

Lemma task_of_keeps (T : Handle → list Event → Handle → Prop) `{!TraceRel T}
    (c : Coroutine) :
  kept_by_blocks T → steps_keep T (task_of c).
Proof.
  intros Hblocks. destruct c as [cmd_param request_no|svs]; cbn [task_of].
  - pose proof Hblocks as (_ & _ & _ & Hprocess). constructor.
    + apply sat_bind; [apply _ | apply Hprocess |]. intros _. apply sat_ret; apply _.
    + intros h t'. rewrite bind_run.
      destruct (_process_sync cmd_param request_no h) as [[h1 t1] [[]|e]];
        rewrite ?ret_run; cbn; [|done].
      intros [= <-]. constructor.
  - destruct (next_nodes_keeps T svs (local_sv svs) Hblocks) as [H1 H2].
    by constructor.
Qed.

(** A relation the blocks keep holds between the start and the end of
    every run of the event loop, whatever the coroutines and the schedule
    are. *)
Lemma run_schedule_keeps (T : Handle → list Event → Handle → Prop) `{!TraceRel T}
    (sched : list nat) (tasks : list Task) (h : Handle) :
  Forall (steps_keep T) tasks →
  T h (run_schedule sched tasks h).2.*2 (run_schedule sched tasks h).1.2.
Proof.
  revert tasks h. induction sched as [|i sched IH]; intros tasks h Htasks;
    [apply trace_rel_refl|].
  cbn [run_schedule]. destruct (tasks !! i) as [[|k]|] eqn:Hi; [by apply IH| |by apply IH].
  pose proof (proj1 (Forall_lookup _ _) Htasks i _ Hi) as Hk.
  inversion Hk as [|k' Hstep Hnext]; subst k'.
  specialize (Hstep h). specialize (Hnext h).
  destruct (k h) as [[h1 t1] r]. cbn [trace_of handle_of result_of fst snd] in *.
  set (t' := match r with Ok t' => t' | Raise _ => Done end).
  assert (Ht' : steps_keep T t').
  { subst t'. destruct r as [t'|e]; [by apply Hnext | constructor]. }
  specialize (IH (<[i := t']> tasks) h1 (Forall_insert _ _ _ _ Htasks Ht')).
  destruct (run_schedule sched (<[i := t']> tasks) h1) as [[tasks' h2] t2].
  cbn [fst snd] in *. rewrite fmap_app, <- list_fmap_compose.
  change (snd ∘ pair i) with (@id Event). rewrite list_fmap_id.
  by eapply trace_rel_trans.
Qed.

Lemma any_run_keeps (T : Handle → list Event → Handle → Prop) `{!TraceRel T}
    (coroutines : list Coroutine) (sched : list nat) (h : Handle) :
  kept_by_blocks T →
  T h (run_schedule sched (task_of <$> coroutines) h).2.*2
      (run_schedule sched (task_of <$> coroutines) h).1.2.
Proof.
  intros Hblocks. apply run_schedule_keeps; [apply _|].
  apply Forall_fmap, Forall_forall. intros c _. by apply task_of_keeps.
Qed.

(** ** The handle after a group is created *)

(** What [_process_sync] leaves of the handle [h] once it has created the
    group of [prefix]. *)
Definition created (group : SyncParam) (prefix : Name) (h : Handle) : Handle :=
  let record := initial_states group prefix in
  let rp := default [] (register_prefix group) in
  let is_existing := bool_decide (rp ∈ registered_prefixes (storage h)) in
  {| states_on_disk := <[Name_to_str prefix := record]> (states_on_disk h);
     m_processes := m_processes h;
     register_root := register_root h;
     storage :=
       {| data_packets := data_packets (storage h);
          registered_prefixes :=
            if truthy (register_prefix group) && negb is_existing
            then registered_prefixes (storage h) ++ [rp]
            else registered_prefixes (storage h);
          stored_sync_groups :=
            if bool_decide (prefix ∈ stored_sync_groups (storage h))
            then stored_sync_groups (storage h)
            else stored_sync_groups (storage h) ++ [prefix];
          sync_states := <[Name_to_str prefix := record]> (sync_states (storage h)) |};
     m_read_handle :=
       if truthy (register_prefix group) && negb (register_root h) && negb is_existing
       then m_read_handle h ++ [rp] else m_read_handle h;
     app := app h ++ [PassiveSvs_init (ListName prefix)];
     network := network h |}.

Lemma process_group_eq (group : SyncParam) (h : Handle) :
  process_group group h =
  match sync_prefix group with
  | None => (h, [], Raise TypeError)
  | Some prefix =>
      if bool_decide (Name_to_str prefix ∈ dom (states_on_disk h)) then (h, [], Ok tt)
      else (created group prefix h,
            EvSvsStart (PassiveSvs_init (ListName prefix)) :: register_trace group h
              ++ [EvAddSyncGroup prefix; EvAddSyncStates prefix (initial_states group prefix)],
            Ok tt)
  end.
Proof.
  unfold process_group, register_trace, created.
  destruct (sync_prefix group) as [prefix|]; [|done]. run_eff.
  case_bool_decide; [done|]. run_eff.
  unfold add_registered_prefix_in_storage, add_sync_group_in_storage.
  destruct (truthy (register_prefix group)); run_eff.
  - destruct (register_root h) eqn:Hroot,
      (bool_decide (default [] (register_prefix group) ∈ registered_prefixes (storage h)));
      cbn [negb andb]; run_eff;
      unfold store_states, with_states_on_disk, with_storage, with_app,
        with_m_read_handle, set_svs_client_states, initial_states; cbn;
      by rewrite insert_insert_eq, ?Hroot.
  - unfold store_states, with_states_on_disk, with_storage, with_app,
      set_svs_client_states, initial_states; cbn.
    by rewrite insert_insert_eq.
Qed.

(** ** Relations that commands keep *)

(** The entries of a log that a command may make: it starts participants,
    registers prefixes, writes group records and records its response. *)
Definition command_event (e : Event) : Prop :=
  match e with
  | EvGetFetched _ _ _ | EvSetFetched _ _ _ | EvFetch _ | EvPutData _ _
  | EvCreateTask _ => False
  | _ => True
  end.

Lemma created_trace_events (group : SyncParam) (prefix : Name) (h : Handle) :
  Forall command_event
    (EvSvsStart (PassiveSvs_init (ListName prefix)) :: register_trace group h
       ++ [EvAddSyncGroup prefix; EvAddSyncStates prefix (initial_states group prefix)]).
Proof.
  unfold register_trace.
  destruct (truthy (register_prefix group)); [|by repeat constructor].
  destruct (negb _ && negb _); by repeat constructor.
Qed.

(** A relation is kept by [_process_sync] when the record of the response
    and the creation of a group keep it. *)
Lemma _process_sync_sat (T : Handle → list Event → Handle → Prop) `{!TraceRel T}
    (cmd_param : RepoCommandParam) (request_no : Bytes) :
  (∀ h stat, T h [EvResponse request_no stat] (with_m_processes (insert request_no stat) h)) →
  (∀ group prefix h,
     sync_prefix group = Some prefix →
     Name_to_str prefix ∉ dom (states_on_disk h) →
     T h (EvSvsStart (PassiveSvs_init (ListName prefix)) :: register_trace group h
            ++ [EvAddSyncGroup prefix; EvAddSyncStates prefix (initial_states group prefix)])
         (created group prefix h)) →
  sat T (_process_sync cmd_param request_no).
Proof.
  intros Hresponse Hcreated h. rewrite _process_sync_run.
  assert (Hgroup : ∀ group, sat T (process_group group)).
  { intros group h'. rewrite process_group_eq.
    destruct (sync_prefix group) as [prefix|] eqn:Hp; [|apply trace_rel_refl].
    case_bool_decide; [apply trace_rel_refl|]. by apply Hcreated. }
  pose proof (sat_for T (sync_groups cmd_param) process_group Hgroup
                (with_m_processes (insert request_no (response_of cmd_param)) h)) as Hloop.
  destruct (for_ _ process_group _) as [[h' tr] r].
  cbn [trace_of handle_of fst snd] in *.
  change (?e :: tr) with ([e] ++ tr). by eapply trace_rel_trans.
Qed.

(** ** The calls of the fetcher *)

(** A call of the fetcher with a semaphore of 10 that either asks for a
    range of sequence numbers with a first and a last number, the first not
    after the last, and retries for ever, or asks for the segments of an
    object from 0 on, without an end and with the retries of the fetcher. *)
Definition well_formed_fetch (args : FetchArgs) : Prop :=
  semaphore args = 10%Z ∧
  ((name_conv args = Some SEQUENCE ∧ max_retries args = Some (-1)%Z ∧
    ∃ last_id, end_id args = Some last_id ∧ (start_id args ≤ last_id)%Z) ∨
   (name_conv args = None ∧ max_retries args = None ∧
    start_id args = 0%Z ∧ end_id args = None)).

Definition bounded_fetches (h : Handle) (tr : list Event) (h' : Handle) : Prop :=
  Forall well_formed_fetch (fetches tr).

#[local] Instance bounded_fetches_rel : TraceRel bounded_fetches.
Proof.
  split; [by constructor|]. unfold bounded_fetches. intros ??????.
  rewrite fetches_app. by apply Forall_app_2.
Qed.

Lemma fetches_command_events (tr : list Event) : Forall command_event tr → fetches tr = [].
Proof. induction 1 as [|e tr He _ IH]; [done|]. by destruct e. Qed.

Lemma bounded_fetches_blocks : kept_by_blocks bounded_fetches.
Proof.
  unfold bounded_fetches. split; [|split; [|split]].
  - intros svs node_id seq h. rewrite enter_node_eq. cbn zeta.
    destruct (states_on_disk h !! _); [|by constructor].
    case_bool_decide; [|by constructor]. unfold sequence_args. cbn.
    apply Forall_singleton. split; [done|]. left. split; [done|]. split; [done|].
    eexists. split; [done|]. cbn. lia.
  - intros svs node_id pkt h. rewrite on_packet_eq. cbn zeta.
    destruct (last (data_name pkt)); [|by constructor].
    destruct (states_on_disk h !! _); [|by constructor].
    destruct (decode_pointer (data_content pkt)); [|by constructor].
    unfold pointer_args. cbn. apply Forall_singleton. split; [done|]. by right.
  - intros seg h. rewrite on_segment_run. by constructor.
  - intros cmd_param request_no. apply _process_sync_sat; [apply _|by constructor|].
    intros group prefix h _ _.
    rewrite (fetches_command_events _ (created_trace_events group prefix h)).
    by constructor.
Qed.

(** X5.  Every call of the fetcher a pass makes, and every call made in a
    run of the event loop on tasks of commands and passes under any
    schedule, has a semaphore of 10 and is of one of two kinds: a range of
    sequence numbers [start_id .. end_id] with [start_id <= end_id], under
    the sequence naming convention and with [max_retries = -1]; or the
    segments of an object from [start_id = 0] with [end_id = None] and the
    naming convention and the retries left to the fetcher.  No pass asks
    for an empty range. *)
Theorem every_fetch_is_bounded (coroutines : list Coroutine) (sched : list nat)
    (svs : PassiveSvs) (h : Handle) :
  Forall well_formed_fetch (fetches (trace_of (fetch_missing_data svs h))) ∧
  Forall well_formed_fetch (fetches (run_schedule sched (task_of <$> coroutines) h).2.*2).
Proof.
  split.
  - apply (fetch_missing_data_sat bounded_fetches svs bounded_fetches_blocks h).
  - apply (any_run_keeps bounded_fetches coroutines sched h bounded_fetches_blocks).
Qed.

(** ** The records in the storage and the table *)

(** The group records in the storage are the entries of the table. *)
Definition mirrored (h : Handle) : Prop := sync_states (storage h) = states_on_disk h.

Definition keeps_mirror (h : Handle) (tr : list Event) (h' : Handle) : Prop :=
  mirrored h → mirrored h'.

#[local] Instance keeps_mirror_rel : TraceRel keeps_mirror.
Proof.
  split; unfold keeps_mirror; [by intros ? ?|].
  intros h1 t1 h2 t2 h3 H1 H2 Hm. by apply H2, H1.
Qed.

Lemma keeps_mirror_blocks : kept_by_blocks keeps_mirror.
Proof.
  unfold keeps_mirror, mirrored. split; [|split; [|split]].
  - intros svs node_id seq h. rewrite enter_node_eq. cbn zeta.
    destruct (states_on_disk h !! _); [|done]. by case_bool_decide.
  - intros svs node_id pkt h. rewrite on_packet_eq. cbn zeta.
    destruct (last (data_name pkt)); [|done].
    destruct (states_on_disk h !! _); [|done].
    destruct (decode_pointer (data_content pkt)); cbn; by intros ->.
  - intros seg h. by rewrite on_segment_run.
  - intros cmd_param request_no. apply _process_sync_sat; [apply _|done|].
    intros group prefix h _ _. cbn. by intros ->.
Qed.

(** X6.  If the group records in the storage are the entries of the table,
    they still are after a command, after a pass (whether it returns or
    raises), and at the end of every run of the event loop on tasks of
    commands and passes, under any schedule: what recovery would read from
    the storage is what the handle has in memory. *)
Theorem storage_mirrors_table (coroutines : list Coroutine) (sched : list nat)
    (cmd_param : RepoCommandParam) (request_no : Bytes) (svs : PassiveSvs) (h : Handle) :
  sync_states (storage h) = states_on_disk h →
  mirrored (handle_of (_process_sync cmd_param request_no h)) ∧
  mirrored (handle_of (fetch_missing_data svs h)) ∧
  mirrored (run_schedule sched (task_of <$> coroutines) h).1.2.
Proof.
  intros Hm. pose proof keeps_mirror_blocks as Hblocks. split; [|split].
  - destruct Hblocks as (_ & _ & _ & Hprocess). by apply Hprocess.
  - by apply (fetch_missing_data_sat keeps_mirror svs Hblocks h).
  - by apply (any_run_keeps keeps_mirror coroutines sched h Hblocks).
Qed.

(** ** The data packets in the storage *)

(** The data packets after an entry of the log. *)
Definition put_in (m : gmap Name Bytes) (e : Event) : gmap Name Bytes :=
  match e with
  | EvPutData name bytes => <[name := bytes]> m
  | _ => m
  end.

Definition data_replayed (h : Handle) (tr : list Event) (h' : Handle) : Prop :=
  data_packets (storage h') = foldl put_in (data_packets (storage h)) tr.

#[local] Instance data_replayed_rel : TraceRel data_replayed.
Proof.
  split; [done|]. unfold data_replayed. intros h1 t1 h2 t2 h3 H1 H2.
  by rewrite foldl_app, <- H1.
Qed.

Lemma put_in_command_events (m : gmap Name Bytes) (tr : list Event) :
  Forall command_event tr → foldl put_in m tr = m.
Proof. induction 1 as [|e tr He _ IH]; [done|]. by destruct e. Qed.

Lemma data_replayed_blocks : kept_by_blocks data_replayed.
Proof.
  unfold data_replayed. split; [|split; [|split]].
  - intros svs node_id seq h. rewrite enter_node_eq. cbn zeta.
    destruct (states_on_disk h !! _); [|done]. by case_bool_decide.
  - intros svs node_id pkt h. rewrite on_packet_eq. cbn zeta.
    destruct (last (data_name pkt)); [|done].
    destruct (states_on_disk h !! _); [|done].
    by destruct (decode_pointer (data_content pkt)).
  - intros seg h. by rewrite on_segment_run.
  - intros cmd_param request_no. apply _process_sync_sat; [apply _|done|].
    intros group prefix h _ _.
    by rewrite (put_in_command_events _ _ (created_trace_events group prefix h)).
Qed.

Lemma put_in_keeps (m : gmap Name Bytes) (tr : list Event) (name : Name) :
  is_Some (m !! name) → is_Some (foldl put_in m tr !! name).
Proof.
  revert m. induction tr as [|e tr IH]; intros m Hin; [done|].
  cbn [foldl]. apply IH. destruct e; try done. cbn.
  destruct (decide (name0 = name)) as [->|Hne];
    [by rewrite lookup_insert_eq | by rewrite lookup_insert_ne].
Qed.

Lemma put_in_stored (m : gmap Name Bytes) (tr : list Event) (name : Name) (bytes : Bytes) :
  EvPutData name bytes ∈ tr → is_Some (foldl put_in m tr !! name).
Proof.
  revert m. induction tr as [|e tr IH]; intros m Hin; [by apply elem_of_nil in Hin|].
  apply elem_of_cons in Hin as [<-|Hin]; [|by apply IH].
  cbn [foldl]. apply put_in_keeps. cbn. by rewrite lookup_insert_eq.
Qed.

(** X7.  In every run of the event loop on tasks of commands and passes,
    under any schedule, the data packets in the storage at the end are the
    ones at the start with the packets the log stores written over them, in
    the order of the log: a later packet of the same name replaces an
    earlier one.  So no run deletes a stored packet, and every packet a
    run stores has its name in the storage at the end. *)
Theorem stored_packets_are_kept (coroutines : list Coroutine) (sched : list nat)
    (h : Handle) :
  let run := run_schedule sched (task_of <$> coroutines) h in
  data_packets (storage run.1.2) = foldl put_in (data_packets (storage h)) run.2.*2 ∧
  (∀ name, is_Some (data_packets (storage h) !! name) →
           is_Some (data_packets (storage run.1.2) !! name)) ∧
  (∀ name bytes, EvPutData name bytes ∈ run.2.*2 →
                 is_Some (data_packets (storage run.1.2) !! name)).
Proof.
  cbn zeta.
  pose proof (any_run_keeps data_replayed coroutines sched h data_replayed_blocks) as Hrun.
  unfold data_replayed in Hrun. rewrite Hrun. split; [done|]. split.
  - intros name. apply put_in_keeps.
  - intros name bytes. apply put_in_stored.
Qed.

(** The log of a packet starts with the storing of the packet. *)
Lemma fetch_packet_first_put (svs : PassiveSvs) (node_id : string) (pkt : Packet)
    (h : Handle) :
  ∃ tr, trace_of (fetch_packet svs node_id pkt h) = put_event pkt :: tr.
Proof.
  rewrite fetch_packet_eq, on_packet_eq. cbn zeta. unfold put_event.
  destruct (last (data_name pkt)); [|by eexists].
  destruct (states_on_disk h !! _); [|by eexists].
  destruct (decode_pointer (data_content pkt)) as [obj_pointer|e];
    [|destruct (caught_pointer e); by eexists].
  destruct (for_ _ on_segment _) as [[h2 t2] r2]. by eexists.
Qed.

Lemma for_packets_puts (svs : PassiveSvs) (node_id : string) (pkts : list Packet)
    (h : Handle) (pkt : Packet) :
  result_of (for_ pkts (fetch_packet svs node_id) h) = Ok tt →
  pkt ∈ pkts →
  put_event pkt ∈ trace_of (for_ pkts (fetch_packet svs node_id) h).
Proof.
  revert h. induction pkts as [|first pkts IH]; intros h Hr Hin;
    [by apply elem_of_nil in Hin|].
  cbn [for_] in *. rewrite bind_run in *.
  destruct (fetch_packet_first_put svs node_id first h) as [tr Htr].
  destruct (fetch_packet svs node_id first h) as [[h1 t1] [[]|e]]; [|done].
  cbn [trace_of fst snd] in Htr. subst t1. specialize (IH h1).
  destruct (for_ pkts (fetch_packet svs node_id) h1) as [[h2 t2] r2].
  cbn [trace_of result_of fst snd] in *.
  apply elem_of_cons in Hin as [->|Hin]; [apply list_elem_of_here|].
  apply list_elem_of_further, elem_of_app. right. by apply IH.
Qed.

(** X19.  In a pass that returns, take a producer [p] of the vector that is
    behind when its turn comes.  Every packet the fetcher yields for the
    range of [p] is in the storage, under its name, when the pass ends:
    what the pass was given it has stored, whatever the packets hold and
    whatever the pass fetches for the producers after [p]. *)
Theorem fetched_packets_are_stored (svs : PassiveSvs) (h : Handle)
    (pre post : list (string * Z)) (p : string) (seq : Z) (gs : GroupStates)
    (pkt : Packet) :
  let g := Name_to_str (base_prefix svs) in
  let before := handle_of (for_ pre (fetch_node svs) h) in
  let fetched_seq := fetched_of before g p in
  let args :=
    {| fetch_name := data_prefix_of (gs_data_name_dedupe gs) svs p;
       start_id := fetched_seq + 1; end_id := Some seq; semaphore := 10;
       name_conv := Some SEQUENCE; max_retries := Some (-1) |}%Z in
  local_sv svs = pre ++ (p, seq) :: post →
  result_of (fetch_missing_data svs h) = Ok tt →
  states_on_disk before !! g = Some gs →
  (fetched_seq < seq)%Z →
  pkt ∈ (concurrent_fetcher (network before) args).1 →
  is_Some (data_packets (storage (handle_of (fetch_missing_data svs h))) !! data_name pkt).
Proof.
  cbn zeta. intros Hsv Hr Hg Hlt Hpkt. unfold fetch_missing_data in *.
  rewrite Hsv in *. rewrite for_app, bind_run in *.
  destruct (for_ pre (fetch_node svs) h) as [[h1 t1] [[]|e1]]; [|done].
  cbn [handle_of fst snd] in Hg, Hlt, Hpkt. cbn [for_] in *. rewrite bind_run in *.
  pose proof (sat_for data_replayed post (fetch_node svs)
                (λ item, fetch_node_sat data_replayed svs item data_replayed_blocks)) as Hpost.
  unfold fetch_node at 1 in Hr. unfold fetch_node at 1.
  rewrite bind_run, enter_node_eq in *. cbn zeta in *. rewrite Hg in *.
  rewrite bool_decide_eq_true_2 in * by done. unfold sequence_args in *.
  set (args := {| fetch_name := _ |}) in *. set (h1' := with_network _ h1) in *.
  pose proof (for_packets_puts svs p (concurrent_fetcher (network h1) args).1 h1' pkt)
    as Hputs.
  pose proof (sat_for data_replayed (concurrent_fetcher (network h1) args).1
                (fetch_packet svs p)
                (λ pkt, fetch_packet_sat data_replayed svs p pkt data_replayed_blocks) h1')
    as Hpkts.
  destruct (for_ _ (fetch_packet svs p) h1') as [[h2 t2] [[]|e2]]; [|done].
  cbn [trace_of handle_of result_of fst snd] in *. specialize (Hpost h2).
  destruct (for_ post (fetch_node svs) h2) as [[h3 t3] r3].
  cbn [trace_of handle_of result_of fst snd] in *.
  unfold data_replayed in Hpost, Hpkts. rewrite Hpost. apply put_in_keeps.
  rewrite Hpkts. by eapply put_in_stored, Hputs.
Qed.

(** ** The assignments of the progress in the log *)

(** At position [i] the log assigns [v] to the progress of producer [p] of
    group [g] right after it stores a packet whose name ends with the
    number [v], and right before it writes a record of [g] that has
    progress [v] for [p]. *)
Definition update_at (tr : list Event) (i : nat) (g p : string) (v : Z) : Prop :=
  ∃ j name bytes prefix gs,
    i = S j ∧ tr !! j = Some (EvPutData name bytes) ∧
    Component_to_number <$> last name = Some v ∧
    tr !! S i = Some (EvAddSyncStates prefix gs) ∧
    Name_to_str prefix = g ∧ fetched_dict gs !! p = Some v.

Definition atomic_updates (h : Handle) (tr : list Event) (h' : Handle) : Prop :=
  ∀ i g p v, tr !! i = Some (EvSetFetched g p v) → update_at tr i g p v.

Lemma update_at_app_l (t1 t2 : list Event) (i : nat) (g p : string) (v : Z) :
  update_at t1 i g p v → update_at (t1 ++ t2) i g p v.
Proof.
  intros (j & name & bytes & prefix & gs & -> & Hput & Hlast & Hadd & Hg & Hv).
  exists j, name, bytes, prefix, gs.
  repeat split; try done; by apply lookup_app_l_Some.
Qed.

Lemma update_at_app_r (t1 t2 : list Event) (i : nat) (g p : string) (v : Z) :
  update_at t2 i g p v → update_at (t1 ++ t2) (length t1 + i) g p v.
Proof.
  intros (j & name & bytes & prefix & gs & -> & Hput & Hlast & Hadd & Hg & Hv).
  exists (length t1 + j), name, bytes, prefix, gs.
  split; [lia|]. split; [|split; [done|split; [|done]]].
  - rewrite lookup_app_r by lia. by replace (length t1 + j - length t1) with j by lia.
  - rewrite lookup_app_r by lia.
    by replace (S (length t1 + S j) - length t1) with (S (S j)) by lia.
Qed.

#[local] Instance atomic_updates_rel : TraceRel atomic_updates.
Proof.
  split; [by intros h i g p v ?|].
  intros h1 t1 h2 t2 h3 H1 H2 i g p v Hi.
  destruct (decide (i < length t1)) as [Hlt|Hge].
  - rewrite lookup_app_l in Hi by done. by apply update_at_app_l, H1.
  - rewrite lookup_app_r in Hi by lia. apply H2 in Hi.
    apply (update_at_app_r t1) in Hi.
    by replace (length t1 + (i - length t1)) with i in Hi by lia.
Qed.

Lemma atomic_updates_command_events (h h' : Handle) (tr : list Event) :
  Forall (λ e, ∀ g p v, e ≠ EvSetFetched g p v) tr → atomic_updates h tr h'.
Proof.
  intros Hall i g p v Hi. apply list_elem_of_lookup_2 in Hi.
  rewrite Forall_forall in Hall. by destruct (Hall _ Hi g p v).
Qed.

Lemma atomic_updates_blocks : kept_by_blocks atomic_updates.
Proof.
  split; [|split; [|split]].
  - intros svs node_id seq h. rewrite enter_node_eq. cbn zeta.
    apply atomic_updates_command_events.
    destruct (states_on_disk h !! _); [|by constructor].
    case_bool_decide; by repeat constructor.
  - intros svs node_id pkt h. rewrite on_packet_eq. cbn zeta.
    destruct (last (data_name pkt)) as [c|] eqn:Hc;
      [|apply atomic_updates_command_events; by repeat constructor].
    destruct (states_on_disk h !! _) as [gs|];
      [|apply atomic_updates_command_events; by repeat constructor].
    assert (Hblock : ∀ h1 h2 rest,
      atomic_updates h1
        ([EvPutData (data_name pkt) (data_bytes pkt);
          EvSetFetched (Name_to_str (base_prefix svs)) node_id (Component_to_number c);
          EvAddSyncStates (base_prefix svs)
            (set_svs_client_states (encode_into_states svs)
               (set_fetched node_id (Component_to_number c) gs))]
         ++ match rest with Some args => [EvFetch args] | None => [] end) h2).
    { intros h1 h2 rest i g p v Hi.
      destruct i as [|[|i]]; [done| |by destruct rest, i as [|[|[|i]]]].
      cbn in Hi. injection Hi as <- <- <-.
      exists 0, (data_name pkt), (data_bytes pkt), (base_prefix svs),
        (set_svs_client_states (encode_into_states svs)
           (set_fetched node_id (Component_to_number c) gs)).
      repeat split; [by rewrite Hc|]. cbn. by rewrite lookup_insert_eq. }
    destruct (decode_pointer (data_content pkt)) as [obj_pointer|e]; cbn [trace_of fst snd].
    + apply (Hblock _ _ (Some (pointer_args obj_pointer))).
    + apply (Hblock _ _ None).
  - intros seg h. rewrite on_segment_run. apply atomic_updates_command_events.
    by repeat constructor.
  - intros cmd_param request_no. apply _process_sync_sat; [apply _| |].
    + intros h stat. apply atomic_updates_command_events. by repeat constructor.
    + intros group prefix h _ _. apply atomic_updates_command_events.
      eapply Forall_impl; [apply created_trace_events|]. by intros [].
Qed.

(** X8.  In the log of every run of the event loop on tasks of commands and
    passes, under any schedule, an assignment of [v] to the progress of
    producer [p] of group [g] stands right after the storing of a packet
    whose name ends with the number [v] and right before the write of a
    record of [g] in which the progress of [p] is [v]: no step of another
    task comes between the three, however the passes interleave. *)
Theorem progress_updates_are_atomic (coroutines : list Coroutine) (sched : list nat)
    (h : Handle) (i : nat) (g p : string) (v : Z) :
  let tr := (run_schedule sched (task_of <$> coroutines) h).2.*2 in
  tr !! i = Some (EvSetFetched g p v) →
  ∃ j name bytes prefix gs,
    i = S j ∧ tr !! j = Some (EvPutData name bytes) ∧
    Component_to_number <$> last name = Some v ∧
    tr !! S i = Some (EvAddSyncStates prefix gs) ∧
    Name_to_str prefix = g ∧ fetched_dict gs !! p = Some v.
Proof.
  cbn zeta. intros Hi.
  by apply (any_run_keeps atomic_updates coroutines sched h atomic_updates_blocks).
Qed.

(** ** What a pass leaves alone *)

(** The record [gs'] has the dedupe flag, the check status and, for the
    producers that are not in [ids], the progress of [gs]. *)
Definition same_settings (ids : list string) (gs gs' : GroupStates) : Prop :=
  gs_data_name_dedupe gs' = gs_data_name_dedupe gs ∧
  check_status gs' = check_status gs ∧
  ∀ p, p ∉ ids → fetched_dict gs' !! p = fetched_dict gs !! p.

Definition pass_frame (g : string) (ids : list string)
    (h : Handle) (tr : list Event) (h' : Handle) : Prop :=
  (∀ g', g' ≠ g → states_on_disk h' !! g' = states_on_disk h !! g') ∧
  option_Forall2 (same_settings ids) (states_on_disk h !! g) (states_on_disk h' !! g) ∧
  m_processes h' = m_processes h ∧
  register_root h' = register_root h ∧
  m_read_handle h' = m_read_handle h ∧
  app h' = app h ∧
  registered_prefixes (storage h') = registered_prefixes (storage h) ∧
  stored_sync_groups (storage h') = stored_sync_groups (storage h).

Lemma same_settings_refl (ids : list string) (o : option GroupStates) :
  option_Forall2 (same_settings ids) o o.
Proof. destruct o; by constructor. Qed.

#[local] Instance pass_frame_rel (g : string) (ids : list string) : TraceRel (pass_frame g ids).
Proof.
  split.
  - intros h. split; [done|]. split; [apply same_settings_refl|done].
  - intros h1 t1 h2 t2 h3 (Ho1 & Hg1 & Hm1 & Hr1 & Hl1 & Ha1 & Hp1 & Hs1)
      (Ho2 & Hg2 & Hm2 & Hr2 & Hl2 & Ha2 & Hp2 & Hs2).
    split; [intros g' Hne; by rewrite Ho2, Ho1|].
    split; [|repeat split; congruence].
    destruct Hg1 as [gs1 gs2 (Hd1 & Hc1 & Hf1)|]; inversion Hg2 as [? gs3 (Hd2 & Hc2 & Hf2)|];
      subst; constructor.
    split; [congruence|]. split; [congruence|].
    intros p Hp. by rewrite Hf2, Hf1.
Qed.

Lemma pass_frame_same_table (g : string) (ids : list string) (h h' : Handle)
    (tr : list Event) :
  states_on_disk h' = states_on_disk h →
  m_processes h' = m_processes h → register_root h' = register_root h →
  m_read_handle h' = m_read_handle h → app h' = app h →
  registered_prefixes (storage h') = registered_prefixes (storage h) →
  stored_sync_groups (storage h') = stored_sync_groups (storage h) →
  pass_frame g ids h tr h'.
Proof.
  intros Hs ? ? ? ? ? ?. split; [by rewrite Hs|]. split; [|done].
  rewrite Hs. apply same_settings_refl.
Qed.

Lemma fetch_node_frame (svs : PassiveSvs) (ids : list string) (node_id : string) (seq : Z) :
  node_id ∈ ids →
  sat (pass_frame (Name_to_str (base_prefix svs)) ids) (fetch_node svs (node_id, seq)).
Proof.
  intros Hid. apply sat_bind; [apply _ | |].
  - intros h. rewrite enter_node_eq. cbn zeta.
    destruct (states_on_disk h !! _); [|apply trace_rel_refl].
    case_bool_decide; by apply pass_frame_same_table.
  - intros [pkts|]; [|apply sat_ret; apply _]. apply sat_for; [apply _|]. intros pkt.
    apply sat_bind; [apply _ | |].
    + intros h. rewrite on_packet_eq. cbn zeta.
      destruct (last (data_name pkt)) as [c|]; [|by apply pass_frame_same_table].
      destruct (states_on_disk h !! Name_to_str (base_prefix svs)) as [gs|] eqn:Hg;
        [|by apply pass_frame_same_table].
      assert (Hcore : ∀ tr net,
        pass_frame (Name_to_str (base_prefix svs)) ids h tr
          (with_network net
             (store_states (base_prefix svs)
                (set_svs_client_states (encode_into_states svs)
                   (set_fetched node_id (Component_to_number c) gs))
                (with_states_on_disk
                   (insert (Name_to_str (base_prefix svs))
                      (set_svs_client_states (encode_into_states svs)
                         (set_fetched node_id (Component_to_number c) gs)))
                   (store_packet (data_name pkt) (data_bytes pkt) h))))).
      { intros tr net. split; [|split; [|done]]; cbn.
        - intros g' Hne. by rewrite lookup_insert_ne.
        - rewrite Hg, lookup_insert_eq. constructor.
          split; [done|]. split; [done|]. cbn. intros p Hp.
          rewrite lookup_insert_ne; [done|]. by intros ->. }
      destruct (decode_pointer (data_content pkt)); cbn [trace_of handle_of fst snd];
        [apply Hcore|].
      apply (Hcore _ (network h)).
    + intros [segs|]; [|apply sat_ret; apply _]. apply sat_for; [apply _|].
      intros seg h. rewrite on_segment_run. by apply pass_frame_same_table.
Qed.

(** X9.  A pass for the participant of group [g], whether it returns or
    raises, changes nothing of the table but the entry of [g]: it adds no
    group and removes none, and leaves the records of the other groups as
    they are.  In the record of [g] it leaves the dedupe flag, the check
    status and the progress of every producer that is not in the vector of
    the participant.  It leaves the responses, the participants, the
    prefixes the read handle listens on, the registered prefixes and the
    stored sync groups. *)
Theorem pass_changes_its_group_only (svs : PassiveSvs) (h : Handle) :
  let g := Name_to_str (base_prefix svs) in
  let h' := handle_of (fetch_missing_data svs h) in
  dom (states_on_disk h') = dom (states_on_disk h) ∧
  (∀ g', g' ≠ g → states_on_disk h' !! g' = states_on_disk h !! g') ∧
  (∀ gs, states_on_disk h !! g = Some gs →
     ∃ gs', states_on_disk h' !! g = Some gs' ∧
            gs_data_name_dedupe gs' = gs_data_name_dedupe gs ∧
            check_status gs' = check_status gs ∧
            ∀ p, p ∉ (local_sv svs).*1 → fetched_dict gs' !! p = fetched_dict gs !! p) ∧
  m_processes h' = m_processes h ∧
  register_root h' = register_root h ∧
  m_read_handle h' = m_read_handle h ∧
  app h' = app h ∧
  registered_prefixes (storage h') = registered_prefixes (storage h) ∧
  stored_sync_groups (storage h') = stored_sync_groups (storage h).
Proof.
  cbn zeta.
  assert (Hframe : pass_frame (Name_to_str (base_prefix svs)) (local_sv svs).*1 h
            (trace_of (fetch_missing_data svs h)) (handle_of (fetch_missing_data svs h))).
  { apply (sat_for_elem (pass_frame (Name_to_str (base_prefix svs)) (local_sv svs).*1)).
    intros [node_id seq] Hin. apply fetch_node_frame.
    apply list_elem_of_fmap. by exists (node_id, seq). }
  destruct Hframe as (Hother & Hg & Hrest).
  split; [|split; [done|split; [|done]]].
  - apply set_eq. intros k. rewrite !elem_of_dom.
    destruct (decide (k = Name_to_str (base_prefix svs))) as [->|Hne];
      [|by rewrite Hother].
    destruct Hg; split; intros [? ?]; by eexists.
  - intros gs Hgs. rewrite Hgs in Hg. inversion Hg as [? gs' Hsame|]; subst.
    by exists gs'.
Qed.

(** ** What a command leaves alone *)

(** A record as [_process_sync] makes it: no progress, no check status. *)
Definition fresh_record (gs : GroupStates) : Prop :=
  fetched_dict gs = ∅ ∧ check_status gs = ∅.

Definition only_adds (h : Handle) (tr : list Event) (h' : Handle) : Prop :=
  states_on_disk h ⊆ states_on_disk h' ∧
  (∀ k gs, states_on_disk h' !! k = Some gs → states_on_disk h !! k = None →
           fresh_record gs) ∧
  data_packets (storage h') = data_packets (storage h) ∧
  network h' = network h ∧
  Forall command_event tr.

#[local] Instance only_adds_rel : TraceRel only_adds.
Proof.
  split.
  - intros h. split; [done|]. split; [|done]. intros k gs Hk Hk'. by rewrite Hk in Hk'.
  - intros h1 t1 h2 t2 h3 (Hs1 & Hf1 & Hd1 & Hn1 & He1) (Hs2 & Hf2 & Hd2 & Hn2 & He2).
    split; [by transitivity (states_on_disk h2)|].
    split; [|split; [congruence|split; [congruence|by apply Forall_app_2]]].
    intros k gs Hk3 Hk1. destruct (states_on_disk h2 !! k) as [gs2|] eqn:Hk2.
    + apply (Hf1 k); [|done].
      pose proof (proj1 (map_subseteq_spec _ _) Hs2 k gs2 Hk2) as Hk3'. congruence.
    + by apply (Hf2 k).
Qed.

Lemma _process_sync_only_adds (cmd_param : RepoCommandParam) (request_no : Bytes) :
  sat only_adds (_process_sync cmd_param request_no).
Proof.
  apply _process_sync_sat; [apply _| |].
  - intros h stat. split; [done|]. split; [|by repeat constructor].
    intros k gs Hk Hk'. cbn in Hk. by rewrite Hk in Hk'.
  - intros group prefix h _ Hnew. apply not_elem_of_dom in Hnew.
    split; [by apply insert_subseteq|].
    split; [|split; [done|split; [done|apply created_trace_events]]].
    intros k gs Hk Hk'. cbn in Hk.
    destruct (decide (k = Name_to_str prefix)) as [->|Hne].
    + rewrite lookup_insert_eq in Hk. by injection Hk as <-.
    + rewrite lookup_insert_ne in Hk by done. by rewrite Hk in Hk'.
Qed.

Lemma history_command_events (g p : string) (tr : list Event) :
  Forall command_event tr → history g p tr = [].
Proof. induction 1 as [|e tr He _ IH]; [done|]. by destruct e. Qed.

(** X10.  Whatever the command and the table are, [_process_sync] leaves
    every record of the table as it is: the table it ends with has the
    entries it started with, and a record under a new key has an empty
    progress and an empty check status.  It calls no fetcher, assigns no
    progress, stores no data packet and leaves the network. *)
Theorem commands_only_add_groups (cmd_param : RepoCommandParam) (request_no : Bytes)
    (h : Handle) :
  let o := _process_sync cmd_param request_no h in
  states_on_disk h ⊆ states_on_disk (handle_of o) ∧
  (∀ k gs, states_on_disk (handle_of o) !! k = Some gs → states_on_disk h !! k = None →
           fetched_dict gs = ∅ ∧ check_status gs = ∅) ∧
  data_packets (storage (handle_of o)) = data_packets (storage h) ∧
  network (handle_of o) = network h ∧
  fetches (trace_of o) = [] ∧
  (∀ g p, history g p (trace_of o) = []).
Proof.
  cbn zeta.
  destruct (_process_sync_only_adds cmd_param request_no h) as (Hs & Hf & Hd & Hn & He).
  split; [done|]. split; [done|]. split; [done|]. split; [done|].
  split; [by apply fetches_command_events|]. intros g p. by apply history_command_events.
Qed.

(** ** The participants a command starts *)

(** The keys of the table for the participants a log starts. *)
Definition group_keys (tr : list Event) : list string :=
  (λ svs, Name_to_str (base_prefix svs)) <$> starts tr.

Definition starts_once (h : Handle) (tr : list Event) (h' : Handle) : Prop :=
  NoDup (group_keys tr) ∧
  (∀ k, k ∈ group_keys tr → k ∉ dom (states_on_disk h)) ∧
  dom (states_on_disk h') = dom (states_on_disk h) ∪ list_to_set (group_keys tr) ∧
  app h' = app h ++ starts tr ∧
  (persists tr).*1 = base_prefix <$> starts tr.

Lemma starts_app (t1 t2 : list Event) : starts (t1 ++ t2) = starts t1 ++ starts t2.
Proof. apply omap_app. Qed.

Lemma persists_app (t1 t2 : list Event) : persists (t1 ++ t2) = persists t1 ++ persists t2.
Proof. apply omap_app. Qed.

Lemma group_keys_app (t1 t2 : list Event) :
  group_keys (t1 ++ t2) = group_keys t1 ++ group_keys t2.
Proof. unfold group_keys. by rewrite starts_app, fmap_app. Qed.

#[local] Instance starts_once_rel : TraceRel starts_once.
Proof.
  split.
  - intros h. split; [constructor|]. split; [by intros k ?%elem_of_nil|].
    split; [|by rewrite app_nil_r]. cbn. apply set_eq. intros k.
    rewrite elem_of_union, elem_of_empty. clear. tauto.
  - intros h1 t1 h2 t2 h3 (Hn1 & Hk1 & Hd1 & Ha1 & Hp1) (Hn2 & Hk2 & Hd2 & Ha2 & Hp2).
    unfold starts_once. rewrite group_keys_app, starts_app, persists_app.
    assert (Hin2 : ∀ k, k ∈ group_keys t1 → k ∈ dom (states_on_disk h2)).
    { intros k Hk. rewrite Hd1, elem_of_union, elem_of_list_to_set. by right. }
    split; [|split; [|split; [|split]]].
    + apply NoDup_app. split; [done|]. split; [|done].
      intros k Hk Hk'. by apply (Hk2 k), Hin2.
    + intros k [Hk|Hk]%elem_of_app; [by apply Hk1|].
      intros Hdom. apply (Hk2 k Hk). rewrite Hd1, elem_of_union. by left.
    + rewrite Hd2, Hd1. apply set_eq. intros k.
      rewrite !elem_of_union, !elem_of_list_to_set, elem_of_app. clear. tauto.
    + by rewrite Ha2, Ha1, (assoc_L (++)).
    + by rewrite !fmap_app, Hp1, Hp2.
Qed.

Lemma _process_sync_starts_once (cmd_param : RepoCommandParam) (request_no : Bytes) :
  sat starts_once (_process_sync cmd_param request_no).
Proof.
  apply _process_sync_sat; [apply _| |].
  - intros h stat. split; [constructor|]. split; [by intros k ?%elem_of_nil|].
    split; [|by rewrite app_nil_r]. cbn. apply set_eq. intros k.
    rewrite elem_of_union, elem_of_empty. clear. tauto.
  - intros group prefix h _ Hnew.
    destruct (register_trace_quiet group h) as [Hstarts Hpersists].
    assert (Hs : starts (EvSvsStart (PassiveSvs_init (ListName prefix))
                           :: register_trace group h
                           ++ [EvAddSyncGroup prefix;
                               EvAddSyncStates prefix (initial_states group prefix)])
                 = [PassiveSvs_init (ListName prefix)]).
    { change (?e :: ?t ++ ?u) with ([e] ++ t ++ u).
      by rewrite !starts_app, Hstarts. }
    assert (Hp : persists (EvSvsStart (PassiveSvs_init (ListName prefix))
                             :: register_trace group h
                             ++ [EvAddSyncGroup prefix;
                                 EvAddSyncStates prefix (initial_states group prefix)])
                 = [(prefix, initial_states group prefix)]).
    { change (?e :: ?t ++ ?u) with ([e] ++ t ++ u).
      by rewrite !persists_app, Hpersists. }
    unfold starts_once, group_keys. rewrite Hs, Hp. cbn.
    split; [apply NoDup_singleton|]. split; [by intros k ->%list_elem_of_singleton|].
    split; [|done]. rewrite dom_insert_L. apply set_eq. intros k.
    rewrite !elem_of_union, elem_of_singleton, elem_of_empty. clear. tauto.
Qed.

(** X11.  Whatever the command and the table are, the participants
    [_process_sync] starts are for pairwise different keys of the table,
    none of which was in the table before; the keys of the table at the
    end are the ones at the start and these; the participants on the
    application are the ones at the start followed by the ones started;
    and one group record is written per participant started, in the same
    order and for its prefix.  So a prefix named twice in one command gets
    one participant and one record. *)
Theorem one_participant_per_group (cmd_param : RepoCommandParam) (request_no : Bytes)
    (h : Handle) :
  let o := _process_sync cmd_param request_no h in
  let keys := (λ svs, Name_to_str (base_prefix svs)) <$> starts (trace_of o) in
  NoDup keys ∧
  (∀ k, k ∈ keys → k ∉ dom (states_on_disk h)) ∧
  dom (states_on_disk (handle_of o)) = dom (states_on_disk h) ∪ list_to_set keys ∧
  app (handle_of o) = app h ++ starts (trace_of o) ∧
  (persists (trace_of o)).*1 = base_prefix <$> starts (trace_of o).
Proof. apply _process_sync_starts_once. Qed.

(** ** The prefixes the read handle is told to listen on *)

Definition listens (tr : list Event) : list Name :=
  omap (λ e, match e with EvListen prefix => Some prefix | _ => None end) tr.

Definition listens_once (h : Handle) (tr : list Event) (h' : Handle) : Prop :=
  register_root h' = register_root h ∧
  m_read_handle h' = m_read_handle h ++ listens tr ∧
  (register_root h = true → listens tr = []) ∧
  NoDup (listens tr) ∧
  (∀ rp, rp ∈ listens tr →
         (rp ∉ registered_prefixes (storage h)) ∧ rp ∈ registered_prefixes (storage h')) ∧
  registered_prefixes (storage h) ⊆ registered_prefixes (storage h').

Lemma listens_app (t1 t2 : list Event) : listens (t1 ++ t2) = listens t1 ++ listens t2.
Proof. apply omap_app. Qed.

#[local] Instance listens_once_rel : TraceRel listens_once.
Proof.
  split.
  - intros h. split; [done|]. split; [by rewrite app_nil_r|]. split; [done|].
    split; [constructor|]. split; [by intros rp ?%elem_of_nil|done].
  - intros h1 t1 h2 t2 h3 (Hr1 & Hm1 & Ht1 & Hn1 & Hp1 & Hs1)
      (Hr2 & Hm2 & Ht2 & Hn2 & Hp2 & Hs2).
    unfold listens_once. rewrite listens_app.
    split; [congruence|]. split; [by rewrite Hm2, Hm1, (assoc_L (++))|].
    split; [intros Hroot; rewrite Ht1 by done; rewrite Ht2 by congruence; done|].
    split; [|split].
    + apply NoDup_app. split; [done|]. split; [|done].
      intros rp Hin1 Hin2. by destruct (Hp2 rp Hin2) as [Hnot _], (Hp1 rp Hin1) as [_ Hin].
    + intros rp [Hin|Hin]%elem_of_app.
      * destruct (Hp1 rp Hin) as [Hnot Hreg]. split; [done|]. by apply Hs2.
      * destruct (Hp2 rp Hin) as [Hnot Hreg]. split; [|done]. intros Hreg1.
        by apply Hnot, Hs1.
    + by transitivity (registered_prefixes (storage h2)).
Qed.

Lemma _process_sync_listens_once (cmd_param : RepoCommandParam) (request_no : Bytes) :
  sat listens_once (_process_sync cmd_param request_no).
Proof.
  apply _process_sync_sat; [apply _| |].
  - intros h stat. split; [done|]. split; [by rewrite app_nil_r|]. split; [done|].
    split; [constructor|]. split; [by intros rp ?%elem_of_nil|done].
  - intros group prefix h _ _. unfold listens_once, register_trace, created.
    cbn [register_root m_read_handle storage registered_prefixes].
    set (rp := default [] (register_prefix group)).
    destruct (truthy (register_prefix group)); cbn [andb].
    2:{ cbn. split; [done|]. split; [by rewrite app_nil_r|]. split; [done|].
        split; [constructor|]. split; [by intros ? ?%elem_of_nil|done]. }
    destruct (register_root h) eqn:Hroot; cbn [negb andb].
    { cbn. split; [done|]. split; [by rewrite app_nil_r|]. split; [done|].
      split; [constructor|]. split; [by intros ? ?%elem_of_nil|].
      case_bool_decide; cbn [negb]; [done|]. intros x Hx. apply elem_of_app. by left. }
    case_bool_decide as Hreg; cbn [negb].
    { cbn. split; [done|]. split; [by rewrite app_nil_r|]. split; [done|].
      split; [constructor|]. split; [by intros ? ?%elem_of_nil|done]. }
    cbn. split; [done|]. split; [done|]. split; [done|].
    split; [apply NoDup_singleton|]. split.
    + intros ? ->%list_elem_of_singleton. split; [done|].
      apply elem_of_app. right. by apply list_elem_of_singleton.
    + intros x Hx. apply elem_of_app. by left.
Qed.

(** X12.  The prefixes [_process_sync] tells the read handle to listen on
    are appended, in order, to the ones it already listens on, and nothing
    else changes them.  When the repository registers its root prefix
    ([register_root] is set), [_process_sync] never tells the read handle
    to listen, whatever the command and the registered prefixes are. *)
Theorem register_root_never_listens (cmd_param : RepoCommandParam) (request_no : Bytes)
    (h : Handle) :
  let o := _process_sync cmd_param request_no h in
  register_root (handle_of o) = register_root h ∧
  m_read_handle (handle_of o) = m_read_handle h ++ listens (trace_of o) ∧
  (register_root h = true →
     listens (trace_of o) = [] ∧ m_read_handle (handle_of o) = m_read_handle h).
Proof.
  cbn zeta.
  destruct (_process_sync_listens_once cmd_param request_no h) as (Hr & Hm & Ht & _).
  split; [done|]. split; [done|]. intros Hroot. split; [by apply Ht|].
  by rewrite Hm, Ht, app_nil_r.
Qed.

(** X13.  One run of [_process_sync] tells the read handle at most once to
    listen on a prefix: the prefixes it passes to [listen] are pairwise
    different, none of them was a registered prefix of the storage before
    the command and all of them are registered after it; and the command
    removes no registered prefix. *)
Theorem read_handle_is_told_once (cmd_param : RepoCommandParam) (request_no : Bytes)
    (h : Handle) :
  let o := _process_sync cmd_param request_no h in
  NoDup (listens (trace_of o)) ∧
  (∀ rp, rp ∈ listens (trace_of o) →
         (rp ∉ registered_prefixes (storage h)) ∧
         rp ∈ registered_prefixes (storage (handle_of o))) ∧
  registered_prefixes (storage h) ⊆ registered_prefixes (storage (handle_of o)).
Proof.
  cbn zeta.
  by destruct (_process_sync_listens_once cmd_param request_no h) as (_ & _ & _ & Hn & Hp & Hs).
Qed.

(** ** The dedup transform, once more *)

Lemma first_occurrences_NoDup_id (seen : list Component) (name : Name) :
  NoDup name → (∀ c, c ∈ name → c ∉ seen) → first_occurrences seen name = name.
Proof.
  revert seen. induction name as [|c name IH]; intros seen Hnd Hseen; [done|].
  apply NoDup_cons in Hnd as [Hc Hnd]. cbn.
  destruct (decide (c ∈ seen)) as [Hin|_];
    [by destruct (Hseen c (list_elem_of_here _ _))|].
  f_equal. apply IH; [done|]. intros d Hd.
  rewrite elem_of_app, list_elem_of_singleton. intros [Hin| ->]; [|done].
  by apply (Hseen d (list_elem_of_further _ _ _ Hd)).
Qed.

(** X14.  The list comprehension of the dedup transform changes nothing
    when it is applied a second time, it leaves a name as it is exactly
    when no component of the name occurs twice, it never makes a name
    longer, and it keeps the first component of the name. *)
Theorem dedupe_is_idempotent (name : Name) :
  dedupe (dedupe name) = dedupe name ∧
  (dedupe name = name ↔ NoDup name) ∧
  length (dedupe name) ≤ length name ∧
  head (dedupe name) = head name.
Proof.
  assert (Hid : ∀ n : Name, NoDup n → dedupe n = n).
  { intros n Hn. rewrite dedupe_first_occurrences.
    apply first_occurrences_NoDup_id; [done|]. by intros c _ ?%elem_of_nil. }
  assert (Hnd : NoDup (dedupe name)).
  { rewrite dedupe_first_occurrences. apply first_occurrences_NoDup. }
  split; [by apply Hid|]. split; [split; [by intros <-|apply Hid]|]. split.
  - rewrite dedupe_first_occurrences. apply sublist_length, first_occurrences_sublist.
  - rewrite dedupe_first_occurrences. destruct name as [|c name]; [done|]. cbn.
    by rewrite decide_False by (by intros ?%elem_of_nil).
Qed.

(** ** The callback for sync messages *)

(** X15.  Whatever the payload is, [_on_sync_msg] leaves the handle as it
    is and does at most one thing: it makes a task of [_process_sync] for
    the parsed command, with the digest of the payload as request number.
    It returns whenever the payload parses.  When [RepoCommandParam.parse]
    raises an exception that is neither a [DecodeError] nor an
    [IndexError], the exception leaves the callback and no task is made. *)
Theorem intake_leaves_the_handle (msg : Bytes) (h : Handle) :
  let o := _on_sync_msg msg h in
  handle_of o = h ∧
  (trace_of o = [] ∨
   ∃ cmd_param, RepoCommandParam_parse msg = Ok cmd_param ∧
                trace_of o = [EvCreateTask (Process_sync cmd_param (sha256 msg))]) ∧
  (∀ cmd_param, RepoCommandParam_parse msg = Ok cmd_param → result_of o = Ok tt) ∧
  (∀ e, RepoCommandParam_parse msg = Raise e → e ≠ DecodeError → e ≠ IndexError →
        result_of o = Raise e ∧ trace_of o = []).
Proof.
  cbn zeta. unfold _on_sync_msg, decode_sync_msg.
  destruct (RepoCommandParam_parse msg) as [cmd_param|e].
  - destruct (sync_groups cmd_param) as [|group groups] eqn:Hgroups.
    { repeat split; [by left|done..]. }
    destruct (forallb _ _).
    + rewrite create_task_run. repeat split; [|done..]. right. by exists cmd_param.
    + repeat split; [by left|done..].
  - split; [by destruct e|]. split; [left; by destruct e|]. split; [done|].
    intros e' [= <-] H1 H2. by destruct e.
Qed.

(** ** Recovery, then passes and commands *)

Lemma up_to_date_pass (svs : PassiveSvs) (items : list (string * Z)) (h : Handle) :
  let g := Name_to_str (base_prefix svs) in
  is_Some (states_on_disk h !! g) →
  Forall (λ item, (item.2 ≤ fetched_of h g item.1)%Z) items →
  for_ items (fetch_node svs) h
  = (h, (λ item, EvGetFetched g item.1 (fetched_of h g item.1)) <$> items, Ok tt).
Proof.
  cbn zeta. intros Hin. induction 1 as [|[p seq] items Hle _ IH]; [done|].
  cbn [for_]. rewrite bind_run, fetch_node_up_to_date by done. by rewrite IH.
Qed.

(** X16.  The table is recovered from [states], in which the record of the
    group of a participant has, for every producer of the vector of the
    participant, a progress (0 when absent) that is at least the sequence
    number of the vector.  A pass for the participant then returns without
    a call to the fetcher, reads the progress of every producer once, in
    the order of the vector, and leaves the handle as recovery left it. *)
Theorem pass_after_recovery_fetches_nothing (states : gmap string GroupStates)
    (svs : PassiveSvs) (h : Handle) (gs : GroupStates) :
  let g := Name_to_str (base_prefix svs) in
  states !! g = Some gs →
  Forall (λ item, (item.2 ≤ default 0 (fetched_dict gs !! item.1))%Z) (local_sv svs) →
  let o1 := recover_from_states states h in
  let o2 := fetch_missing_data svs (handle_of o1) in
  result_of o2 = Ok tt ∧
  handle_of o2 = handle_of o1 ∧
  trace_of o2
  = (λ item, EvGetFetched g item.1 (default 0%Z (fetched_dict gs !! item.1)))
      <$> local_sv svs ∧
  fetches (trace_of o1 ++ trace_of o2) = [].
Proof.
  cbn zeta. intros Hg Hall.
  assert (Hstates : states_on_disk (handle_of (recover_from_states states h)) = states).
  { unfold recover_from_states. rewrite bind_run, modify_run, for_recover_group. done. }
  assert (Hfetched : ∀ p, fetched_of (handle_of (recover_from_states states h))
                            (Name_to_str (base_prefix svs)) p
                          = default 0%Z (fetched_dict gs !! p)).
  { intros p. unfold fetched_of. by rewrite Hstates, Hg. }
  assert (Htrace : fetches (trace_of (recover_from_states states h)) = []).
  { unfold recover_from_states. rewrite bind_run, modify_run, for_recover_group.
    cbn [trace_of fst snd List.app]. by induction (recovered <$> map_to_list states). }
  unfold fetch_missing_data. rewrite up_to_date_pass.
  - cbn [result_of handle_of trace_of fst snd]. split; [done|]. split; [done|]. split.
    + apply list_fmap_ext. intros i item _. by rewrite Hfetched.
    + rewrite fetches_app, Htrace. cbn [List.app]. clear.
      by induction (local_sv svs) as [|item items IH].
  - rewrite Hstates, Hg. by eexists.
  - eapply Forall_impl; [exact Hall|]. intros item Hle. cbn beta. by rewrite Hfetched.
Qed.

(** X17.  The table is recovered from [states], and a command then names
    groups whose prefixes all are keys of [states].  [_process_sync]
    records the response and does nothing else: it starts no participant
    again, writes no record, and the table and the storage are as recovery
    left them. *)
Theorem recovered_groups_are_not_restarted (states : gmap string GroupStates)
    (cmd_param : RepoCommandParam) (request_no : Bytes) (h : Handle) :
  Forall (λ group, ∃ prefix, sync_prefix group = Some prefix ∧
                             Name_to_str prefix ∈ dom states) (sync_groups cmd_param) →
  let o1 := recover_from_states states h in
  let o2 := _process_sync cmd_param request_no (handle_of o1) in
  result_of o2 = Ok tt ∧
  trace_of o2 = [EvResponse request_no (response_of cmd_param)] ∧
  states_on_disk (handle_of o2) = states ∧
  storage (handle_of o2) = storage h ∧
  app (handle_of o2) = app (handle_of o1).
Proof.
  cbn zeta. intros Hall.
  assert (Hrec : handle_of (recover_from_states states h)
                 = with_app (λ l, l ++ (recovered <$> map_to_list states))
                     (with_states_on_disk (λ _, states) h)).
  { unfold recover_from_states. by rewrite bind_run, modify_run, for_recover_group. }
  rewrite Hrec, _process_sync_run, for_duplicates; [done|].
  eapply Forall_impl; [exact Hall|]. intros group (prefix & Hp & Hin). by exists prefix.
Qed.

(** ** Construction and [listen] *)

(** The handle as an object: the attributes of [Handle], the attribute
    [prefix] that [listen] sets, and the topics on which the handle has
    subscribed [_on_sync_msg] to the [PubSub] it holds ([pb], an attribute
    of the base class), in the order of the calls of [subscribe]. *)
Record HandleObject := {
  attrs : Handle;
  prefix_attr : option Name;
  pb : list Name
}.

(** [__init__], from the object as the constructor of the base class
    leaves it ([base] for its attributes, [pb0] for its [PubSub]).
    [config] is a dictionary of dictionaries; the handle reads
    [config['repo_config']['register_root']], of which it uses the truth
    value. *)
Definition __init__ (base : Handle) (pb0 : list Name) (read_handle : list Name)
    (config : gmap string (gmap string bool)) : Res HandleObject :=
  match config !! "repo_config" with
  | None => Raise KeyError
  | Some repo_config =>
      match repo_config !! "register_root" with
      | None => Raise KeyError
      | Some root =>
          Ok {| attrs :=
                  {| states_on_disk := ∅;
                     m_processes := m_processes base;
                     register_root := root;
                     storage := storage base;
                     m_read_handle := read_handle;
                     app := app base;
                     network := network base |};
                prefix_attr := None;
                pb := pb0 |}
      end
  end.

(** [listen]: the topic is the normalized prefix followed by the
    components of ['sync']. *)
Definition listen (prefix : NonStrictName) (o : HandleObject) : HandleObject :=
  let prefix := Name_normalize prefix in
  {| attrs := attrs o;
     prefix_attr := Some prefix;
     pb := pb o ++ [prefix ++ Name_from_str "sync"] |}.

(** X18.  The constructor raises [KeyError] exactly when [config] has no
    ['repo_config'] or that has no ['register_root']; otherwise the handle
    it makes has the configured [register_root], no prefix and an empty
    table of groups, whatever the constructor of the base class left.
    Calls of [listen] on it leave these attributes: the prefix of the
    handle is the normalized prefix of the last call, and there is one
    subscription per call, in order, on the normalized prefix followed by
    ['sync'].  As long as neither a command nor a recovery has run, a pass
    on the handle does nothing for an empty vector and raises [KeyError]
    for any other. *)
Theorem constructed_handle_has_no_group (base : Handle) (pb0 read_handle : list Name)
    (config : gmap string (gmap string bool)) :
  let constructed := __init__ base pb0 read_handle config in
  let configured := config !! "repo_config" ≫= λ repo_config, repo_config !! "register_root" in
  (constructed = Raise KeyError ↔ configured = None) ∧
  ∀ o, constructed = Ok o →
    configured = Some (register_root (attrs o)) ∧
    states_on_disk (attrs o) = ∅ ∧
    prefix_attr o = None ∧
    m_read_handle (attrs o) = read_handle ∧
    ∀ prefixes : list NonStrictName,
      let o' := foldl (λ o prefix, listen prefix o) o prefixes in
      attrs o' = attrs o ∧
      prefix_attr o' = last (Name_normalize <$> prefixes) ∧
      pb o' = pb0 ++ ((λ prefix, Name_normalize prefix ++ Name_from_str "sync") <$> prefixes) ∧
      ∀ svs, fetch_missing_data svs (attrs o')
             = (attrs o', [],
                match local_sv svs with [] => Ok tt | _ :: _ => Raise KeyError end).
Proof.
  cbn zeta. unfold __init__.
  destruct (config !! "repo_config") as [repo_config|]; cbn; [|by split].
  destruct (repo_config !! "register_root") as [root|]; [|by split].
  split; [by split|]. intros o [= <-]. cbn [attrs prefix_attr pb states_on_disk
    register_root m_read_handle]. do 4 (split; [done|]).
  assert (Hlisten : ∀ (prefixes : list NonStrictName) (o : HandleObject),
    let o' := foldl (λ o prefix, listen prefix o) o prefixes in
    attrs o' = attrs o ∧
    prefix_attr o' = from_option Some (prefix_attr o) (last (Name_normalize <$> prefixes)) ∧
    pb o' = pb o ++ ((λ prefix, Name_normalize prefix ++ Name_from_str "sync") <$> prefixes)).
  { induction prefixes as [|prefix prefixes IH]; intros o; cbn zeta.
    - cbn. by rewrite app_nil_r.
    - cbn [foldl]. destruct (IH (listen prefix o)) as (-> & -> & ->).
      split; [done|]. split.
      + rewrite fmap_cons, last_cons. by destruct (last (Name_normalize <$> prefixes)).
      + cbn. by rewrite <- (assoc_L (++)). }
  intros prefixes. specialize (Hlisten prefixes). cbn zeta in Hlisten.
  set (o := {| attrs := _; prefix_attr := None; pb := pb0 |}) in *.
  destruct (Hlisten o) as (Hattrs & Hprefix & Hpb). split; [done|]. split.
  - rewrite Hprefix. by destruct (last (Name_normalize <$> prefixes)).
  - split; [done|]. intros svs. rewrite Hattrs. unfold fetch_missing_data.
    destruct (local_sv svs) as [|[node_id seq] items]; [done|].
    cbn [for_]. rewrite bind_run. unfold fetch_node.
    rewrite bind_run, enter_node_eq. cbn zeta. subst o. cbn [attrs states_on_disk].
    by rewrite lookup_empty.
Qed.

(** ** Groups, once in the table *)

(** Every group of the table at the start is in the table at the end, with
    its dedupe flag and its check status. *)
Definition keeps_groups (h : Handle) (tr : list Event) (h' : Handle) : Prop :=
  ∀ g gs, states_on_disk h !! g = Some gs →
    ∃ gs', states_on_disk h' !! g = Some gs' ∧
           gs_data_name_dedupe gs' = gs_data_name_dedupe gs ∧
           check_status gs' = check_status gs.

#[local] Instance keeps_groups_rel : TraceRel keeps_groups.
Proof.
  split; [intros h g gs Hg; by exists gs|].
  intros h1 t1 h2 t2 h3 H1 H2 g gs Hg.
  destruct (H1 g gs Hg) as (gs2 & Hg2 & Hd2 & Hc2).
  destruct (H2 g gs2 Hg2) as (gs3 & Hg3 & Hd3 & Hc3).
  exists gs3. split; [done|]. split; congruence.
Qed.

Lemma keeps_groups_same_table (h h' : Handle) (tr : list Event) :
  states_on_disk h' = states_on_disk h → keeps_groups h tr h'.
Proof. intros Hs g gs Hg. exists gs. by rewrite Hs. Qed.

Lemma keeps_groups_blocks : kept_by_blocks keeps_groups.
Proof.
  split; [|split; [|split]].
  - intros svs node_id seq h. rewrite enter_node_eq. cbn zeta.
    destruct (states_on_disk h !! _); [|by apply keeps_groups_same_table].
    case_bool_decide; by apply keeps_groups_same_table.
  - intros svs node_id pkt h. rewrite on_packet_eq. cbn zeta.
    destruct (last (data_name pkt)) as [c|]; [|by apply keeps_groups_same_table].
    destruct (states_on_disk h !! Name_to_str (base_prefix svs)) as [gs0|] eqn:Hg0;
      [|by apply keeps_groups_same_table].
    assert (Hcore : ∀ tr h',
      states_on_disk h'
      = <[Name_to_str (base_prefix svs) :=
            set_svs_client_states (encode_into_states svs)
              (set_fetched node_id (Component_to_number c) gs0)]> (states_on_disk h) →
      keeps_groups h tr h').
    { intros tr h' Hs g gs Hg. rewrite Hs.
      destruct (decide (g = Name_to_str (base_prefix svs))) as [->|Hne].
      - rewrite lookup_insert_eq. eexists. split; [done|].
        rewrite Hg0 in Hg. by injection Hg as <-.
      - rewrite lookup_insert_ne by done. by exists gs. }
    destruct (decode_pointer (data_content pkt)); by apply Hcore.
  - intros seg h. rewrite on_segment_run. by apply keeps_groups_same_table.
  - intros cmd_param request_no h g gs Hg.
    destruct (_process_sync_only_adds cmd_param request_no h) as (Hsub & _).
    exists gs. split; [|done]. by apply (proj1 (map_subseteq_spec _ _) Hsub).
Qed.

(** X20.  In every run of the event loop on tasks of commands and passes,
    under any schedule, a group that is in the table at the start is in
    the table at the end, with the dedupe flag and the check status it had:
    no statement of the file removes a group or changes its flag. *)
Theorem groups_are_never_removed (coroutines : list Coroutine) (sched : list nat)
    (h : Handle) :
  let h' := (run_schedule sched (task_of <$> coroutines) h).1.2 in
  dom (states_on_disk h) ⊆ dom (states_on_disk h') ∧
  ∀ g gs, states_on_disk h !! g = Some gs →
    ∃ gs', states_on_disk h' !! g = Some gs' ∧
           gs_data_name_dedupe gs' = gs_data_name_dedupe gs ∧
           check_status gs' = check_status gs.
Proof.
  cbn zeta.
  pose proof (any_run_keeps keeps_groups coroutines sched h keeps_groups_blocks) as Hrun.
  split; [|exact Hrun]. intros g [gs Hg]%elem_of_dom.
  destruct (Hrun g gs Hg) as (gs' & Hg' & _). apply elem_of_dom. by eexists.
Qed.

(** * The progress across passes *)

(** The callback of the participant and the recovery start every pass as
    a task of its own ([aio.create_task]); the event loop resumes the
    tasks in an order of its choice.  What several passes do to the
    progress is therefore a property of the runs of [run_schedule]. *)


(** ** The records written carry the progress of their time *)



(** ** A task that keeps the progress in order *)








(** ** The event loop on tasks that keep the progress in order *)



End SyncCommandHandle.


(** * A concrete repository

    The collaborators, made concrete: names of text and number components,
    a fetcher over a network that has every packet asked for, a participant
    whose exported state is its vector, and a handful of command
    payloads. *)
Module Demo.

Inductive component := Str (s : string) | Num (n : Z).

#[global] Instance component_eq_dec : EqDecision component.
Proof. solve_decision. Defined.

#[global] Instance component_countable : Countable component :=
  inj_countable'
    (λ c, match c with Str s => inl s | Num n => inr n end)
    (λ x, match x with inl s => Str s | inr n => Num n end)
    (λ c, match c with Str _ => eq_refl | Num _ => eq_refl end).

(** [Name.from_str]: the pieces between the slashes. *)
Definition slash : Ascii.ascii := Ascii.ascii_of_nat 47.

Fixpoint split_slash (s cur : string) : list string :=
  match s with
  | EmptyString => [cur]
  | String c s' =>
      if Ascii.eqb c slash then cur :: split_slash s' EmptyString
      else split_slash s' (cur +:+ String c EmptyString)
  end.

Definition from_str (s : string) : list component :=
  Str <$> filter (λ piece, piece ≠ EmptyString) (split_slash s EmptyString).

Definition component_str (c : component) : string :=
  match c with
  | Str s => s
  | Num n => "seq=" +:+ pretty n
  end.

Definition to_str (name : list component) : string :=
  foldr (λ c rest, "/" +:+ component_str c +:+ rest) EmptyString name.

Definition to_number (c : component) : Z :=
  match c with
  | Num n => n
  | Str _ => 0
  end.

(** The exported state of a participant is its vector. *)
Definition svs_states : Type := list (string * Z).

Abbreviation passive_svs := (PassiveSvs (Component:=component) svs_states).

Definition encode (svs : passive_svs) : svs_states := local_sv _ svs.

Definition decode (svs : passive_svs) (states : option svs_states) : passive_svs :=
  {| base_prefix := base_prefix _ svs; local_sv := default [] states;
     svs_inner := states |}.

(** Contents: the byte 6 opens a data object, the byte 7 a name.  The
    packet numbered 5 of every producer points to the object [/obj]; the
    other packets carry a byte that is neither. *)
Definition pointer_content : Bytes := [x06; x07]%byte.
Definition plain_content : Bytes := [x2a]%byte.

Definition packet_at (prefix : list component) (i : Z) : Packet :=
  {| data_name := prefix ++ [Num i];
     data_content := Some (if decide (i = 5)%Z then pointer_content else plain_content);
     data_bytes := [x00]%byte |}.

(** The network has every packet of every range, and two segments of every
    object. *)
Definition fetcher (net : unit) (args : FetchArgs) : list Packet * unit :=
  match end_id args with
  | Some e =>
      (packet_at (fetch_name args) <$> seqZ (start_id args) (e - start_id args + 1), net)
  | None => (packet_at (fetch_name args) <$> seqZ (start_id args) 2, net)
  end.

Definition parse_data (content : option Bytes) : Res (option Bytes) :=
  match content with
  | None => Raise TypeError
  | Some [] => Raise IndexError
  | Some (x06 :: inner)%byte => Ok (Some inner)
  | Some _ => Raise ValueError
  end.

Definition from_bytes (content : option Bytes) : Res (list component) :=
  match content with
  | None => Raise TypeError
  | Some [] => Raise IndexError
  | Some (x07 :: _)%byte => Ok [Str "obj"]
  | Some _ => Raise ValueError
  end.

(** Command payloads: one byte per group, 1 for the group [/g] (which
    registers [/r]), 2 for the group [/g] once more under a different
    command, 0 for a group without a prefix; any other byte does not
    parse. *)
Definition group_of (b : Byte.byte) : option (SyncParam (Component:=component)) :=
  match b with
  | x00 => Some {| sync_prefix := None; register_prefix := None; data_name_dedupe := false |}
  | x01 => Some {| sync_prefix := Some [Str "g"]; register_prefix := Some [Str "r"];
                   data_name_dedupe := false |}
  | x02 => Some {| sync_prefix := Some [Str "g"]; register_prefix := None;
                   data_name_dedupe := true |}
  | _ => None
  end%byte.

Definition parse (msg : Bytes) : Res (RepoCommandParam (Component:=component)) :=
  match mapM group_of msg with
  | Some groups => Ok {| sync_groups := groups |}
  | None => Raise DecodeError
  end.

(** A stand-in for the digest. *)
Definition digest (msg : Bytes) : Bytes := reverse msg.

Abbreviation handle := (Handle (Component:=component) svs_states unit).

Abbreviation fetch_missing_data :=
  (fetch_missing_data from_str to_str to_number svs_states encode unit fetcher
     parse_data from_bytes).
Abbreviation fetch_packet :=
  (fetch_packet to_str to_number svs_states encode unit fetcher parse_data from_bytes).
Abbreviation process_group :=
  (process_group from_str to_str svs_states encode unit).
Abbreviation _process_sync := (_process_sync from_str to_str svs_states encode unit).
Abbreviation _on_sync_msg := (_on_sync_msg parse digest svs_states unit).
Abbreviation fetch_missing_data_task :=
  (fetch_missing_data_task from_str to_str to_number svs_states encode unit fetcher
     parse_data from_bytes).

(** The group [/g] with progress 3 for the producer [p]. *)
Definition record_g : GroupStates svs_states :=
  {| fetched_dict := {["p" := 3%Z]}; svs_client_states := None;
     gs_data_name_dedupe := false; check_status := ∅ |}.

Definition empty_storage : Storage (Component:=component) svs_states :=
  {| data_packets := ∅; registered_prefixes := []; stored_sync_groups := [];
     sync_states := ∅ |}.

Definition empty_handle : handle :=
  {| states_on_disk := ∅; m_processes := ∅; register_root := false;
     storage := empty_storage; m_read_handle := []; app := []; network := tt |}.

Definition handle_g : handle :=
  {| states_on_disk := {["/g" := record_g]}; m_processes := ∅; register_root := false;
     storage := empty_storage; m_read_handle := []; app := []; network := tt |}.

(** The participant of [/g] when the vector says 7 for [p]. *)
Definition svs_g (seq : Z) : passive_svs :=
  {| base_prefix := [Str "g"]; local_sv := [("p", seq)]; svs_inner := None |}.

(** The payload [1] parses into this command. *)
Definition group_g : SyncParam (Component:=component) :=
  {| sync_prefix := Some [Str "g"]; register_prefix := Some [Str "r"];
     data_name_dedupe := false |}.

Definition group_g_again : SyncParam (Component:=component) :=
  {| sync_prefix := Some [Str "g"]; register_prefix := None; data_name_dedupe := true |}.

Definition cmd_g : RepoCommandParam := {| sync_groups := [group_g] |}.

(** The handle once the command [1] is processed: the group [/g] is new,
    nothing is fetched yet. *)
Definition fresh_handle : handle :=
  handle_of _ _ (_process_sync cmd_g (digest [x01]%byte) empty_handle).


(** ** The properties at work *)


(** The group [/g] submitted by the command [1] and again by the command
    [2]. *)
Lemma duplicate_sync_group_is_noop_witness :
  let o1 := _process_sync {| sync_groups := [group_g] |} (digest [x01]%byte) empty_handle in
  let o2 := _process_sync {| sync_groups := [group_g_again] |} (digest [x02]%byte)
              (handle_of _ _ o1) in
  starts _ (trace_of _ _ o1 ++ trace_of _ _ o2) = [PassiveSvs_init from_str _ (ListName [Str "g"])] ∧
  app _ _ (handle_of _ _ o2) = [PassiveSvs_init from_str _ (ListName [Str "g"])] ∧
  storage _ _ (handle_of _ _ o2) = storage _ _ (handle_of _ _ o1) ∧
  process_group group_g_again (handle_of _ _ o1) = (handle_of _ _ o1, [], Ok tt).
Proof.
  pose proof (duplicate_sync_group_is_noop from_str to_str svs_states encode unit)
    as (Hskip & _ & Htwice).
  assert (Hfresh : to_str [Str "g"] ∉ dom (states_on_disk _ _ empty_handle)).
  { cbn. rewrite dom_empty_L. apply not_elem_of_empty. }
  destruct (Htwice empty_handle group_g group_g_again [Str "g"] [Str "g"]
              (digest [x01]%byte) (digest [x02]%byte) eq_refl eq_refl eq_refl Hfresh)
    as (Hstarts & _ & Happ & _ & Hstorage & _).
  split; [exact Hstarts|]. split; [exact Happ|]. split; [exact Hstorage|].
  apply (Hskip _ group_g_again [Str "g"] eq_refl). vm_compute. reflexivity.
Defined.

(** The payload [1; 0]: its second group has no prefix. *)
Lemma malformed_command_is_dropped_witness :
  malformed parse [x01; x00]%byte ∧
  handle_of _ _ (_on_sync_msg [x01; x00]%byte fresh_handle) = fresh_handle ∧
  trace_of _ _ (_on_sync_msg [x01; x00]%byte fresh_handle) = [].
Proof.
  assert (Hbad : malformed parse [x01; x00]%byte).
  { right. exists {| sync_prefix := None; register_prefix := None;
                     data_name_dedupe := false |}.
    split; [|reflexivity]. apply list_elem_of_further, list_elem_of_here. }
  pose proof (malformed_command_is_dropped parse digest svs_states unit
                [x01; x00]%byte fresh_handle Hbad) as (Hh & Ht & _).
  split; [exact Hbad|]. split; [exact Hh | exact Ht].
Defined.


(** The packet 4 of [p]: stored, then progress 4, then the record with
    progress 4 written. *)
Lemma store_before_progress_witness :
  let o := fetch_packet (svs_g 7) "p" (packet_at [Str "p"; Str "g"] 4) handle_g in
  let record :=
    {| fetched_dict := <["p" := 4%Z]> (fetched_dict _ record_g);
       svs_client_states := Some [("p", 7%Z)];
       gs_data_name_dedupe := false; check_status := ∅ |} in
  trace_of _ _ o
  = [EvPutData _ [Str "p"; Str "g"; Num 4] [x00]%byte; EvSetFetched _ "/g" "p" 4%Z;
     EvAddSyncStates _ [Str "g"] record] ∧
  sync_states _ (storage _ _ (handle_of _ _ o)) !! "/g" = Some record.
Proof.
  cbn zeta.
  pose proof (store_before_progress to_str to_number svs_states encode unit fetcher parse_data
                from_bytes (svs_g 7) "p" (packet_at [Str "p"; Str "g"] 4) handle_g
                (Num 4) record_g eq_refl eq_refl) as (Htr & _ & _ & _ & Hstored & _).
  split; [exact Htr | exact Hstored].
Defined.

(** The name [/A/B/A/C/B]. *)
Lemma dedupe_keeps_first_occurrences_witness :
  dedupe [Str "A"; Str "B"; Str "A"; Str "C"; Str "B"] = [Str "A"; Str "B"; Str "C"] ∧
  data_prefix_of from_str svs_states true (svs_g 7) "/g/p" = [Str "g"; Str "p"] ∧
  data_prefix_of from_str svs_states false (svs_g 7) "/g/p" = [Str "g"; Str "p"; Str "g"].
Proof.
  pose proof (dedupe_keeps_first_occurrences from_str to_str svs_states unit fetcher
                (svs_g 7) "/g/p") as (Hunset & Hset & _ & _ & _ & _ & Hexample).
  split; [|split; [exact Hset | exact Hunset]].
  apply Hexample; discriminate.
Defined.

(** The command [1] is accepted. *)
Lemma accepted_command_is_acknowledged_witness :
  let stat :=
    {| status_code := IN_PROGRESS;
       res_sync_groups :=
         [ {| ss_name := Some [Str "g"]; ss_status_code := ROGER; ss_insert_num := 0%Z |} ] |} in
  _on_sync_msg [x01]%byte empty_handle
  = (empty_handle, [EvCreateTask _ (Process_sync _ cmd_g (digest [x01]%byte))], Ok tt) ∧
  m_processes _ _ fresh_handle !! digest [x01]%byte = Some stat.
Proof.
  cbn zeta.
  assert (Hall : Forall (λ group : SyncParam, truthy (sync_prefix group) = true)
                   (sync_groups cmd_g)) by (by repeat constructor).
  pose proof (accepted_command_is_acknowledged from_str to_str parse digest svs_states encode
                unit [x01]%byte cmd_g empty_handle empty_handle eq_refl
                ltac:(discriminate) Hall) as (Hmsg & _ & _ & Hstat & _).
  split; [exact Hmsg | exact Hstat].
Defined.

(** ** Two passes of one group, interleaved *)

(** The group [/g] is new.  The vector says 2 for [p]: a pass starts, reads
    progress 0, asks for 1 to 2 and handles the packet 1.  The vector moves
    to 3 and the callback creates a second pass: it reads progress 1, asks
    for 2 to 3 and handles both packets.  Then the first pass gets its
    packet 2. *)
Definition interleaved : list nat := [0; 0; 1; 1; 1; 0].

Definition two_passes : list passive_svs := [svs_g 2; svs_g 3].




(** ** Further properties at work *)

(** A pass for the group [/g] on a handle that has no group. *)
Lemma pass_of_unknown_group_witness :
  fetch_missing_data (svs_g 7) empty_handle = (empty_handle, [], Raise KeyError).
Proof.
  exact (pass_of_unknown_group from_str to_str to_number svs_states encode unit fetcher
           parse_data from_bytes (svs_g 7) empty_handle eq_refl).
Defined.

(** The packets of this repository have a name, and their content holds a
    pointer or makes the decoding raise a [ValueError]. *)
Lemma fetcher_well_behaved (net : unit) (args : FetchArgs) :
  Forall (well_behaved parse_data from_bytes) (fetcher net args).1.
Proof.
  assert (Hpacket : ∀ prefix i, well_behaved parse_data from_bytes (packet_at prefix i)).
  { intros prefix i. split; [by destruct prefix|]. intros e. unfold packet_at. cbn.
    destruct (decide (i = 5)%Z); cbn; [done|]. by intros [= <-]. }
  unfold fetcher. destruct (end_id args); cbn; apply Forall_fmap, Forall_forall;
    intros i _; apply Hpacket.
Qed.

(** The pass from progress 3 to a vector that says 7 returns. *)
Lemma pass_returns_witness :
  result_of _ _ (fetch_missing_data (svs_g 7) handle_g) = Ok tt.
Proof.
  assert (Hin : is_Some (states_on_disk _ _ handle_g !! to_str (base_prefix _ (svs_g 7))))
    by (by eexists).
  exact (proj1 (pass_returns from_str to_str to_number svs_states encode unit fetcher
                  parse_data from_bytes (svs_g 7) handle_g fetcher_well_behaved Hin)).
Defined.

(** The command [1] and a pass for [/g], interleaved, from the empty
    handle. *)
Definition command_and_pass : list (Coroutine (Component:=component) svs_states) :=
  [Process_sync svs_states cmd_g (digest [x01]%byte); Fetch_missing_data svs_states (svs_g 2)].

Lemma storage_mirrors_table_witness :
  let run :=
    run_schedule svs_states unit [1; 0; 1; 1; 1]
      (task_of from_str to_str to_number svs_states encode unit fetcher parse_data
         from_bytes <$> command_and_pass) empty_handle in
  mirrored svs_states unit run.1.2.
Proof.
  exact (proj2 (proj2 (storage_mirrors_table from_str to_str to_number svs_states encode
                         unit fetcher parse_data from_bytes command_and_pass
                         [1; 0; 1; 1; 1] cmd_g (digest [x01]%byte) (svs_g 2)
                         empty_handle eq_refl))).
Defined.

(** The assignment of 2 that comes after the assignment of 3 in the
    interleaved run of the two passes. *)
Lemma progress_updates_are_atomic_witness :
  let tr :=
    (run_schedule svs_states unit interleaved
       (task_of from_str to_str to_number svs_states encode unit fetcher parse_data
          from_bytes <$> (Fetch_missing_data svs_states <$> two_passes))
       fresh_handle).2.*2 in
  tr !! 14 = Some (EvSetFetched svs_states "/g" "p" 2%Z) ∧
  ∃ name bytes prefix gs,
    tr !! 13 = Some (EvPutData svs_states name bytes) ∧
    to_number <$> last name = Some 2%Z ∧
    tr !! 15 = Some (EvAddSyncStates svs_states prefix gs) ∧
    to_str prefix = "/g" ∧ fetched_dict svs_states gs !! "p" = Some 2%Z.
Proof.
  cbn zeta.
  assert (Hi : (run_schedule svs_states unit interleaved
                  (task_of from_str to_str to_number svs_states encode unit fetcher
                     parse_data from_bytes <$> (Fetch_missing_data svs_states <$> two_passes))
                  fresh_handle).2.*2 !! 14
               = Some (EvSetFetched svs_states "/g" "p" 2%Z))
    by (vm_compute; reflexivity).
  split; [exact Hi|].
  destruct (progress_updates_are_atomic from_str to_str to_number svs_states encode unit
              fetcher parse_data from_bytes (Fetch_missing_data svs_states <$> two_passes)
              interleaved fresh_handle 14 "/g" "p" 2%Z Hi)
    as (j & name & bytes & prefix & gs & Hj & Hput & Hlast & Hadd & Hg & Hv).
  injection Hj as <-. by exists name, bytes, prefix, gs.
Defined.

(** Recovery from the record of [/g] with progress 3, then a pass for a
    vector that says 3. *)
Lemma pass_after_recovery_fetches_nothing_witness :
  let o1 :=
    recover_from_states from_str svs_states decode unit {["/g" := record_g]} empty_handle in
  let o2 := fetch_missing_data (svs_g 3) (handle_of _ _ o1) in
  result_of _ _ o2 = Ok tt ∧
  trace_of _ _ o2 = [EvGetFetched svs_states "/g" "p" 3%Z] ∧
  fetches svs_states (trace_of _ _ o1 ++ trace_of _ _ o2) = [].
Proof.
  cbn zeta.
  assert (Hall : Forall (λ item : string * Z,
                   (item.2 ≤ default 0 (fetched_dict svs_states record_g !! item.1))%Z)
                 (local_sv svs_states (svs_g 3))).
  { repeat constructor. by vm_compute. }
  assert (Hg : ({["/g" := record_g]} : gmap string (GroupStates svs_states))
                 !! to_str (base_prefix svs_states (svs_g 3)) = Some record_g)
    by (vm_compute; reflexivity).
  destruct (pass_after_recovery_fetches_nothing from_str to_str to_number svs_states
              encode decode unit fetcher parse_data from_bytes {["/g" := record_g]}
              (svs_g 3) empty_handle record_g Hg Hall) as (Hr & _ & Ht & Hf).
  split; [exact Hr|]. split; [exact Ht | exact Hf].
Defined.

(** Recovery from the record of [/g], then the command [1], which names
    [/g]. *)
Lemma recovered_groups_are_not_restarted_witness :
  let o1 :=
    recover_from_states from_str svs_states decode unit {["/g" := record_g]} empty_handle in
  let o2 := _process_sync cmd_g (digest [x01]%byte) (handle_of _ _ o1) in
  result_of _ _ o2 = Ok tt ∧
  starts svs_states (trace_of _ _ o2) = [] ∧
  states_on_disk _ _ (handle_of _ _ o2) = {["/g" := record_g]}.
Proof.
  cbn zeta.
  assert (Hall : Forall (λ group : SyncParam,
                   ∃ prefix, sync_prefix group = Some prefix ∧
                             to_str prefix ∈ dom ({["/g" := record_g]} : gmap string _))
                 (sync_groups cmd_g)).
  { repeat constructor. exists [Str "g"]. split; [reflexivity|].
    apply elem_of_dom. by eexists. }
  destruct (recovered_groups_are_not_restarted from_str to_str svs_states encode decode
              unit {["/g" := record_g]} cmd_g (digest [x01]%byte) empty_handle Hall)
    as (Hr & Ht & Hs & _).
  split; [exact Hr|]. split; [by rewrite Ht | exact Hs].
Defined.

(** The packet 6 of the producer [p], after the pass from progress 3 to a
    vector that says 7. *)
Lemma fetched_packets_are_stored_witness :
  is_Some
    (data_packets _ (storage _ _ (handle_of _ _ (fetch_missing_data (svs_g 7) handle_g)))
       !! data_name (packet_at [Str "p"; Str "g"] 6)).
Proof.
  apply (fetched_packets_are_stored from_str to_str to_number svs_states encode unit fetcher
           parse_data from_bytes (svs_g 7) handle_g [] [] "p" 7%Z record_g
           (packet_at [Str "p"; Str "g"] 6)).
  - reflexivity.
  - vm_compute; reflexivity.
  - vm_compute; reflexivity.
  - by vm_compute.
  - vm_compute. do 2 apply list_elem_of_further. apply list_elem_of_here.
Defined.


(** ** The progress across the two passes *)



End Demo.


(** * Faulty collaborators

    The repository of [Demo] with a fetcher that yields a packet without a
    name, and with a [parse_data] that raises [DecodeError]. *)
Module Faults.

Definition nameless : Packet (Component:=Demo.component) :=
  {| data_name := []; data_content := None; data_bytes := [x01]%byte |}.

Definition nameless_fetcher (net : unit) (args : FetchArgs (Component:=Demo.component))
    : list Packet * unit :=
  ([nameless; Demo.packet_at (fetch_name args) 5], net).

Definition strict_parse_data (content : option Bytes) : Res (option Bytes) :=
  Raise DecodeError.

(** The pass from progress 3 to a vector that says 7, with the fetcher that
    yields the packet without a name first. *)
Lemma packet_without_name_ends_pass_witness :
  let o :=
    fetch_missing_data Demo.from_str Demo.to_str Demo.to_number Demo.svs_states Demo.encode
      unit nameless_fetcher Demo.parse_data Demo.from_bytes (Demo.svs_g 7) Demo.handle_g in
  result_of _ _ o = Raise IndexError ∧
  states_on_disk _ _ (handle_of _ _ o) = states_on_disk _ _ Demo.handle_g ∧
  data_packets _ (storage _ _ (handle_of _ _ o)) = {[ [] := [x01]%byte ]}.
Proof.
  cbn zeta.
  assert (Hlt : (fetched_of Demo.svs_states unit Demo.handle_g "/g" "p" < 7)%Z)
    by (by vm_compute).
  destruct (packet_without_name_ends_pass Demo.from_str Demo.to_str Demo.to_number
              Demo.svs_states Demo.encode unit nameless_fetcher Demo.parse_data
              Demo.from_bytes (Demo.svs_g 7) Demo.handle_g "p" 7%Z [] Demo.record_g
              nameless [Demo.packet_at [Demo.Str "p"; Demo.Str "g"] 5]
              eq_refl eq_refl Hlt eq_refl eq_refl) as (Hr & _ & Hs & _ & Hd).
  split; [exact Hr|]. split; [exact Hs | exact Hd].
Defined.

(** The packets 4 and 5 of the producer [p], with the [parse_data] that
    raises [DecodeError]. *)
Lemma pointer_error_of_other_class_ends_pass_witness :
  let pkts := Demo.packet_at [Demo.Str "p"; Demo.Str "g"] <$> [4; 5]%Z in
  let o :=
    for_ Demo.svs_states unit pkts
      (fetch_packet Demo.to_str Demo.to_number Demo.svs_states Demo.encode unit
         Demo.fetcher strict_parse_data Demo.from_bytes (Demo.svs_g 7) "p")
      Demo.handle_g in
  result_of _ _ o = Raise DecodeError ∧
  fetched_of _ _ (handle_of _ _ o) "/g" "p" = 4%Z.
Proof.
  cbn zeta.
  destruct (pointer_error_of_other_class_ends_pass Demo.to_str Demo.to_number
              Demo.svs_states Demo.encode unit Demo.fetcher strict_parse_data
              Demo.from_bytes (Demo.svs_g 7) "p"
              (Demo.packet_at [Demo.Str "p"; Demo.Str "g"] 4)
              [Demo.packet_at [Demo.Str "p"; Demo.Str "g"] 5] Demo.handle_g
              (Demo.Num 4) Demo.record_g DecodeError eq_refl eq_refl eq_refl)
    as (Hr & _ & Hf & _); [done..|].
  split; [exact Hr | exact Hf].
Defined.



End Faults.
